(** * flip_pancakes: the pancake-flipping stack reducer

    A shallow embedding of [flip_pancakes.py] and the properties its
    specification states about it.

    Python values are modelled as follows.
    - a [str] is a list of characters ([list ascii]); every character the
      program distinguishes ('+', '-', the newline, blanks, digits) is ASCII;
    - an [int] is a [Z];
    - a raised exception is the [Raise] outcome of a computation; a pure
      function that may raise returns an [outcome], a function that also
      reads the standard input or prints runs in the [IO] monad, which
      threads the unread input lines and the text printed so far;
    - the [while] loop of [fix_stack] is bounded by a number of permitted
      iterations ([fuel]); running out of it is the [Diverge] outcome. *)

From Stdlib Require Import Ascii String DecimalString.
From Stdlib Require Import List ZArith Lia Bool.
Import ListNotations.

(** ** Python values, exceptions and effects *)

Definition str := list ascii.

Definition lit (s : string) : str := list_ascii_of_string s.

Definition LF : ascii := "010"%char.

(** The exceptions the program can raise: its own [CharacterError], and the
    built-in ones of indexing, of [int()] and of [sys.exit]. *)
Inductive exn : Type :=
| CharacterError (msg : str)
| IndexError
| ValueError
| SystemExit (code : Z).

Inductive outcome (A : Type) : Type :=
| Ret (a : A)
| Raise (e : exn)
| Diverge.

Arguments Ret {A} a.
Arguments Raise {A} e.
Arguments Diverge {A}.

Definition obind {A B : Type} (c : outcome A) (k : A -> outcome B) : outcome B :=
  match c with
  | Ret a => k a
  | Raise e => Raise e
  | Diverge => Diverge
  end.

(** What the process has left to read and what it has printed. *)
Record world : Type := World { stdin : list str; stdout : str }.

Definition IO (A : Type) : Type := world -> outcome A * world.

Definition ret {A : Type} (a : A) : IO A := fun w => (Ret a, w).

Definition raise {A : Type} (e : exn) : IO A := fun w => (Raise e, w).

Definition diverge {A : Type} : IO A := fun w => (Diverge, w).

Definition lift {A : Type} (c : outcome A) : IO A := fun w => (c, w).

Definition bind {A B : Type} (c : IO A) (k : A -> IO B) : IO B :=
  fun w =>
    match c w with
    | (Ret a, w') => k a w'
    | (Raise e, w') => (Raise e, w')
    | (Diverge, w') => (Diverge, w')
    end.

Declare Scope io_scope.
Delimit Scope io_scope with io.
Notation "x <- c ;; k" := (bind c (fun x => k))
  (at level 61, c at next level, right associativity) : io_scope.
Notation "c ;;; k" := (bind c (fun _ => k))
  (at level 61, right associativity) : io_scope.
Open Scope io_scope.

(** [print(text, end=end_)], and [print(text)] whose [end] is a newline. *)
Definition print_end (text end_ : str) : IO unit :=
  fun w => (Ret tt, {| stdin := stdin w; stdout := stdout w ++ text ++ end_ |}).

Definition print (text : str) : IO unit := print_end text [LF].

(** [sys.stdin.readline()]: the next line, or the empty string at the end of
    the input. *)
Definition readline : IO str :=
  fun w =>
    match stdin w with
    | [] => (Ret [], w)
    | l :: rest => (Ret l, {| stdin := rest; stdout := stdout w |})
    end.

(** The lines of an input text, each with its newline when it has one. *)
Fixpoint lines_from (cur : str) (text : str) : list str :=
  match text with
  | [] => match cur with [] => [] | _ => [rev cur] end
  | c :: rest =>
      if Ascii.eqb c LF then rev (c :: cur) :: lines_from [] rest
      else lines_from (c :: cur) rest
  end.

Definition stdin_lines (text : str) : list str := lines_from [] text.

(** ['{0}'.format(n)] for an [int]: its decimal numeral. *)
Definition format_int (n : Z) : str :=
  lit (NilZero.string_of_int (Z.to_int n)).

(** [str.isspace] on one character, for the characters below 256: the
    blanks that [str.strip()] removes. *)
Definition is_space (c : ascii) : bool :=
  let n := nat_of_ascii c in
  ((9 <=? n) && (n <=? 13)) || ((28 <=? n) && (n <=? 32))
  || (n =? 133) || (n =? 160).

Fixpoint lstrip (s : str) : str :=
  match s with
  | [] => []
  | c :: rest => if is_space c then lstrip rest else s
  end.

(** [s.strip()] *)
Definition strip (s : str) : str := rev (lstrip (rev (lstrip s))).

Definition digit_val (c : ascii) : option Z :=
  let n := nat_of_ascii c in
  if (48 <=? n) && (n <=? 57) then Some (Z.of_nat (n - 48)) else None.

Fixpoint digits_val (acc : Z) (s : str) : outcome Z :=
  match s with
  | [] => Ret acc
  | c :: rest =>
      match digit_val c with
      | Some d => digits_val (10 * acc + d) rest
      | None => Raise ValueError
      end
  end.

(** [int(s)] on a text: blanks around, an optional sign, decimal digits
    (digit grouping with underscores, which later Python versions read, is
    not part of the model). *)
Definition py_int (s : str) : outcome Z :=
  match strip s with
  | [] => Raise ValueError
  | c :: rest =>
      if Ascii.eqb c "-" then
        match rest with
        | [] => Raise ValueError
        | _ => obind (digits_val 0 rest) (fun n => Ret (- n)%Z)
        end
      else if Ascii.eqb c "+" then
        match rest with
        | [] => Raise ValueError
        | _ => digits_val 0 rest
        end
      else digits_val 0 (c :: rest)
  end.

(** Where a slice bound [num] falls in a sequence of [n] items: a negative
    bound counts from the end, and bounds are clamped to the sequence. *)
Definition slice_bound (num : Z) (n : nat) : nat :=
  if (num <? 0)%Z then Z.to_nat (num + Z.of_nat n) else Nat.min (Z.to_nat num) n.

(** [len(s)] *)
Definition len (s : str) : Z := Z.of_nat (length s).

(** ** The regular expressions of the program *)

(** The longest leading run of the character [c]. *)
Fixpoint leading_run (c : ascii) (items : str) : str :=
  match items with
  | [] => []
  | x :: rest => if Ascii.eqb x c then x :: leading_run c rest else []
  end.

(** [re.compile('^(c+)').search(items)]: group 1 of the match, when there is
    one; the run is greedy and must have at least one character. *)
Definition search_leading_run (c : ascii) (items : str) : option str :=
  match leading_run c items with
  | [] => None
  | g => Some g
  end.

(** [FIRST_DOWN_ITEMS = re.compile(r'^(\-+)')] *)
Definition FIRST_DOWN_ITEMS (items : str) : option str :=
  search_leading_run "-" items.

(** [FIRST_UP_ITEMS = re.compile(r'^(\++)')] *)
Definition FIRST_UP_ITEMS (items : str) : option str :=
  search_leading_run "+" items.

Definition legal_char (c : ascii) : bool := Ascii.eqb c "-" || Ascii.eqb c "+".

(** [LEGAL_STACK = re.compile(r'^[\-\+]*$')], whether [search] finds a match.
    [^] holds at the start of the text only; [$] holds at its end and also
    just before a newline that is its last character. *)
Fixpoint LEGAL_STACK (items : str) : bool :=
  match items with
  | [] => true
  | c :: rest =>
      if legal_char c then LEGAL_STACK rest
      else Ascii.eqb c LF && match rest with [] => true | _ => false end
  end.

(** ** The program *)

(** [split_items(num, items)]: [items[:num], items[num:]] *)
Definition split_items (num : Z) (items : str) : str * str :=
  let i := slice_bound num (length items) in
  (firstn i items, skipn i items).

Definition flip_char (char : ascii) : outcome ascii :=
  if Ascii.eqb char "+" then Ret "-"%char
  else if Ascii.eqb char "-" then Ret "+"%char
  else Raise (CharacterError [char]).

(** [''.join([flip_char(x) for x in items])]: the characters are flipped
    from left to right, and the first illegal one raises. *)
Fixpoint flip_chars (items : str) : outcome str :=
  match items with
  | [] => Ret []
  | x :: rest =>
      obind (flip_char x) (fun y =>
      obind (flip_chars rest) (fun ys => Ret (y :: ys)))
  end.

Definition reverse_items (items : str) : str := rev items.

Definition stack_flip (index : Z) (items : str) : outcome str :=
  let '(part1, part2) := split_items index items in
  obind (flip_chars (reverse_items part1)) (fun flipped_part1 =>
  Ret (flipped_part1 ++ part2)).

Definition flip_and_print (index : Z) (items : str) (verbose : bool) : IO str :=
  items <- lift (stack_flip index items) ;;
  (if verbose then print items else ret tt) ;;;
  ret items.

(** [items[0] == '-']; indexing an empty text raises. *)
Definition first_down (items : str) : outcome bool :=
  match items with
  | [] => Raise IndexError
  | c :: _ => Ret (Ascii.eqb c "-")
  end.

Definition count_down_items (items : str) : Z :=
  match FIRST_DOWN_ITEMS items with
  | Some group1 => len group1
  | None => 0%Z
  end.

Definition count_up_items (items : str) : Z :=
  match FIRST_UP_ITEMS items with
  | Some group1 => len group1
  | None => 0%Z
  end.

Definition all_up (up_count : Z) (items : str) : bool :=
  (len items =? up_count)%Z.

(** The local variables of [fix_stack] at the test of its loop. *)
Record locals : Type := Locals {
  items : str;
  flip_count : Z;
  up_count : Z;
  finished : bool
}.

(** [fix_stack] up to the first test of its loop: the validation, the
    conditional flip of the leading run of down items, and the first
    computation of [up_count] and [finished]. *)
Definition fix_stack_entry (items : str) (verbose : bool) : IO locals :=
  if negb (LEGAL_STACK items) then
    raise (CharacterError (lit "Not a legal stack: " ++ items))
  else
    let flip_count := 0%Z in
    down <- lift (first_down items) ;;
    st <- (if down : bool then
             let down_count := count_down_items items in
             (if verbose then print_end (format_int down_count ++ lit " ") []
              else ret tt) ;;;
             items <- flip_and_print down_count items verbose ;;
             ret (items, (flip_count + 1)%Z)
           else ret (items, flip_count)) ;;
    let '(items, flip_count) := st in
    let up_count := count_up_items items in
    ret {| items := items; flip_count := flip_count; up_count := up_count;
           finished := all_up up_count items |}.

(** One run of the body of the loop. *)
Definition fix_stack_body (verbose : bool) (st : locals) : IO locals :=
  (if verbose then print_end (format_int (up_count st) ++ lit " ") []
   else ret tt) ;;;
  items <- flip_and_print (up_count st) (items st) verbose ;;
  let flip_count := (flip_count st + 1)%Z in
  let down_count := count_down_items items in
  (if verbose then print_end (format_int down_count ++ lit " ") []
   else ret tt) ;;;
  items <- flip_and_print down_count items verbose ;;
  let flip_count := (flip_count + 1)%Z in
  let up_count := count_up_items items in
  ret {| items := items; flip_count := flip_count; up_count := up_count;
         finished := all_up up_count items |}.

(** [while not finished: body], allowed [fuel] runs of the body. *)
Fixpoint fix_stack_while (fuel : nat) (verbose : bool) (st : locals) : IO locals :=
  if finished st then ret st
  else
    match fuel with
    | O => diverge
    | S fuel' =>
        st' <- fix_stack_body verbose st ;;
        fix_stack_while fuel' verbose st'
    end.

(** The whole run, with the local variables it ends with. *)
Definition fix_stack_run (fuel : nat) (items : str) (verbose : bool) : IO locals :=
  st <- fix_stack_entry items verbose ;;
  fix_stack_while fuel verbose st.

Definition fix_stack (fuel : nat) (items : str) (verbose : bool) : IO Z :=
  st <- fix_stack_run fuel items verbose ;;
  ret (flip_count st).

(** The states in which the test of the loop is evaluated: [at_loop_test
    items0 verbose w0 k st w] says that the [k]-th evaluation (from 0), in the
    run on [items0] started in [w0], sees the locals [st] in the world [w]. *)
Inductive at_loop_test (items0 : str) (verbose : bool) (w0 : world)
  : nat -> locals -> world -> Prop :=
| test_first st w :
    fix_stack_entry items0 verbose w0 = (Ret st, w) ->
    at_loop_test items0 verbose w0 O st w
| test_next k st w st' w' :
    at_loop_test items0 verbose w0 k st w ->
    finished st = false ->
    fix_stack_body verbose st w = (Ret st', w') ->
    at_loop_test items0 verbose w0 (S k) st' w'.

(** [for stack_raw in sys.stdin: ...] of [process_input_data_stream], over
    the unread lines. *)
Fixpoint for_stack_raw (fuel : nat) (count case : Z) (unread : list str) : IO unit :=
  match unread with
  | [] => ret tt
  | stack_raw :: rest =>
      (fun w => (Ret tt, {| stdin := rest; stdout := stdout w |})) ;;;
      let case := (case + 1)%Z in
      if (case >? count)%Z then raise (SystemExit 0)
      else
        let stack := strip stack_raw in
        flip_count <- fix_stack fuel stack false ;;
        print (lit "Case #" ++ format_int case ++ lit ": " ++ format_int flip_count) ;;;
        for_stack_raw fuel count case rest
  end.

Definition process_input_data_stream (fuel : nat) : IO unit :=
  line <- readline ;;
  count <- lift (py_int (strip line)) ;;
  let case := 0%Z in
  fun w => for_stack_raw fuel count case (stdin w) w.

(** ** The specification's reducer *)

Module Spec.

Inductive Orientation : Type := UP | DOWN.

Definition Stack := list Orientation.

Definition invert (o : Orientation) : Orientation :=
  match o with UP => DOWN | DOWN => UP end.

Definition same (a b : Orientation) : bool :=
  match a, b with
  | UP, UP | DOWN, DOWN => true
  | _, _ => false
  end.

(** The flip of prefix length [k]: the first [k] elements reversed and
    inverted, then the remaining elements unchanged. *)
Definition flip (k : nat) (s : Stack) : Stack :=
  map invert (rev (firstn k s)) ++ skipn k s.

(** The length of the maximal leading run of elements of orientation [o]. *)
Fixpoint run (o : Orientation) (s : Stack) : nat :=
  match s with
  | x :: rest => if same x o then S (run o rest) else O
  | [] => O
  end.

(** A flip that was applied: its prefix length and the sequence it gave. *)
Definition step : Type := nat * Stack.

(** Steps 3 and 4: [main_loop s count steps result] says that from the sequence
    [s] and the count [count] the loop applies [steps] and returns [result]. *)
Inductive main_loop : Stack -> Z -> list step -> Z -> Prop :=
| loop_done s count :
    run UP s = length s ->
    main_loop s count [] count
| loop_again s count s1 s2 steps result :
    run UP s <> length s ->
    s1 = flip (run UP s) s ->
    s2 = flip (run DOWN s1) s1 ->
    main_loop s2 (count + 1 + 1) steps result ->
    main_loop s count ((run UP s, s1) :: (run DOWN s1, s2) :: steps) result.

(** Steps 2 to 4 on a valid sequence. *)
Inductive reduce : Stack -> list step -> Z -> Prop :=
| reduce_down rest s1 steps result :
    s1 = flip (run DOWN (DOWN :: rest)) (DOWN :: rest) ->
    main_loop s1 (0 + 1) steps result ->
    reduce (DOWN :: rest) ((run DOWN (DOWN :: rest), s1) :: steps) result
| reduce_up rest steps result :
    main_loop (UP :: rest) 0 steps result ->
    reduce (UP :: rest) steps result.

Definition symbol (o : Orientation) : ascii :=
  match o with UP => "+"%char | DOWN => "-"%char end.

(** The textual form of a sequence. *)
Definition show (s : Stack) : str := map symbol s.

Definition parse_symbol (c : ascii) : option Orientation :=
  if Ascii.eqb c "+" then Some UP
  else if Ascii.eqb c "-" then Some DOWN
  else None.

(** Step 1: the text is read into a sequence, or is invalid. *)
Fixpoint parse (text : str) : option Stack :=
  match text with
  | [] => Some []
  | c :: rest =>
      match parse_symbol c, parse rest with
      | Some o, Some s => Some (o :: s)
      | _, _ => None
      end
  end.

(** The trace of the verbose mode: for each step the prefix length, a blank,
    the resulting sequence and a newline. *)
Fixpoint trace (steps : list step) : str :=
  match steps with
  | [] => []
  | (k, s) :: rest =>
      format_int (Z.of_nat k) ++ lit " " ++ show s ++ [LF] ++ trace rest
  end.

End Spec.

(** A text over the two legal symbols. *)
Definition legal (s : str) : Prop :=
  Forall (fun c => c = "+"%char \/ c = "-"%char) s.

(** The inversion of a symbol, as the specification words it. *)
Definition inverted (c : ascii) : ascii :=
  if Ascii.eqb c "+" then "-"%char
  else if Ascii.eqb c "-" then "+"%char
  else c.

(** The world after [text] has been printed. *)
Definition printed (w : world) (text : str) : world :=
  {| stdin := stdin w; stdout := stdout w ++ text |}.

(** What the verbose mode prints of [text], and the silent mode does not. *)
Definition shown (verbose : bool) (text : str) : str :=
  if verbose then text else [].

(** The locals of [fix_stack] at a test of the loop, when the items read as
    the sequence [s] and [count] flips have been made. *)
Definition locals_of (s : Spec.Stack) (count : Z) : locals :=
  {| items := Spec.show s; flip_count := count;
     up_count := count_up_items (Spec.show s);
     finished := all_up (count_up_items (Spec.show s)) (Spec.show s) |}.

(** The locals agree with the items they were computed from. *)
Definition coherent (st : locals) : Prop :=
  up_count st = count_up_items (items st) /\
  finished st = all_up (up_count st) (items st).

(** The locals of [fix_stack] at a test of the loop when the items read as
    the sequence [s] followed by a newline. *)
Definition locals_newline (s : Spec.Stack) (count : Z) : locals :=
  {| items := Spec.show s ++ [LF]; flip_count := count;
     up_count := Z.of_nat (Spec.run Spec.UP s); finished := false |}.

(** A computation that does not consult the unread input: its outcome and
    what it prints depend on the text printed so far only. *)
Definition stdin_blind {A : Type} (c : IO A) : Prop :=
  forall w1 w2,
    stdout w1 = stdout w2 ->
    fst (c w1) = fst (c w2) /\ stdout (snd (c w1)) = stdout (snd (c w2)).

(** The input stream of the batch example: the count 2 and two sequences. *)
Definition batch_example : str :=
  lit "2" ++ [LF] ++ lit "--+--+" ++ [LF] ++ lit "-+-+-+" ++ [LF].

(** ** The demonstration and the command line *)

(** [first_experiments()]: four sequences, each printed and then flipped at
    scripted prefix lengths, every result printed, and an empty line. *)
Definition first_experiments : IO unit :=
  let items := lit "--+--+" in
  print items ;;;
  items <- flip_and_print 2 items true ;;
  items <- flip_and_print 3 items true ;;
  items <- flip_and_print 5 items true ;;
  print [] ;;;
  let items := lit "--++-+" in
  print items ;;;
  items <- flip_and_print 2 items true ;;
  items <- flip_and_print 4 items true ;;
  items <- flip_and_print 5 items true ;;
  print [] ;;;
  let items := lit "----+-" in
  print items ;;;
  items <- flip_and_print 4 items true ;;
  items <- flip_and_print 5 items true ;;
  items <- flip_and_print 6 items true ;;
  print [] ;;;
  let items := lit "-+-+-+" in
  print items ;;;
  items <- flip_and_print 1 items true ;;
  items <- flip_and_print 2 items true ;;
  items <- flip_and_print 3 items true ;;
  items <- flip_and_print 4 items true ;;
  items <- flip_and_print 5 items true ;;
  print [].

(** What [get_args()] returns: the values of the five command-line options;
    an option that takes a text is [None] when it is not given. *)
Record options : Type := Options {
  opt_items : option str;
  opt_experiments : bool;
  opt_verbose : bool;
  opt_data : bool;
  opt_fix : option str
}.

(** The truth value of an optional text in a condition: [None] and the
    empty text are false. *)
Definition truthy (o : option str) : bool :=
  match o with
  | Some (_ :: _) => true
  | _ => false
  end.

Definition text_of (o : option str) : str :=
  match o with
  | Some s => s
  | None => []
  end.

(** The body of the [try] of [main()]. *)
Definition main_try (fuel : nat) (opts : options) : IO unit :=
  if opt_experiments opts then first_experiments
  else if truthy (opt_fix opts) then
    print (lit "  " ++ text_of (opt_fix opts)) ;;;
    flip_count <- fix_stack fuel (text_of (opt_fix opts)) true ;;
    print (lit "Flips: " ++ format_int flip_count)
  else if opt_data opts then process_input_data_stream fuel
  else ret tt.

(** What the handler of [main()] writes to the error stream. *)
Definition character_error_report (msg : str) : str :=
  [LF] ++ lit "There was a character error:" ++ [LF] ++ msg ++ [LF].

(** [main()] on the options [opts]: the outcome, the world it leaves, and
    what it wrote to the error stream. Only [CharacterError] is handled. *)
Definition main (fuel : nat) (opts : options) (w : world)
  : outcome unit * world * str :=
  match main_try fuel opts w with
  | (Raise (CharacterError msg), w') =>
      (Raise (SystemExit 1), w', character_error_report msg)
  | (o, w') => (o, w', [])
  end.

(** ** Notions the further properties are stated with *)

(** The number of places in a text where two neighbours differ. *)
Fixpoint boundaries (text : str) : nat :=
  match text with
  | x :: (y :: _) as rest => (if Ascii.eqb x y then 0 else 1) + boundaries rest
  | _ => 0
  end.

(** The neighbours that differ, and one more when the last item is down. *)
Definition flips_needed (text : str) : Z :=
  (Z.of_nat (boundaries text)
   + (if Ascii.eqb (last text "+"%char) "-" then 1 else 0))%Z.

(** The same count on a sequence of orientations. *)
Fixpoint changes (s : Spec.Stack) : nat :=
  match s with
  | x :: (y :: _) as rest => (if Spec.same x y then 0 else 1) + changes rest
  | _ => 0
  end.

Definition last_down (s : Spec.Stack) : nat :=
  match last s Spec.UP with Spec.DOWN => 1 | Spec.UP => 0 end.

Definition needed (s : Spec.Stack) : nat := changes s + last_down s.

(** Whether the last element of [a] and the first of [b] differ. *)
Definition junction (a b : Spec.Stack) : nat :=
  match a, b with
  | _ :: _, y :: _ => if Spec.same (last a Spec.UP) y then 0 else 1
  | _, _ => 0
  end.

(** Flips applied one after the other, at the given prefix lengths. *)
Fixpoint apply_flips (indexes : list Z) (items : str) : outcome str :=
  match indexes with
  | [] => Ret items
  | index :: rest => obind (stack_flip index items) (apply_flips rest)
  end.

(** The lines batch mode prints for the sequences [lines], numbered from
    [case]. *)
Fixpoint case_lines (case : Z) (lines : list str) : str :=
  match lines with
  | [] => []
  | l :: rest =>
      lit "Case #" ++ format_int case ++ lit ": "
      ++ format_int (flips_needed (strip l)) ++ [LF]
      ++ case_lines (case + 1) rest
  end.

(** A computation [loud] and its silent twin: they have the same outcome
    whatever the worlds they start in, the silent one leaves the world as it
    found it, and the loud one only adds to the printed text. *)
Definition silent_twin {A : Type} (loud silent : IO A) : Prop :=
  forall w1 w2,
    fst (loud w1) = fst (silent w2) /\
    snd (silent w2) = w2 /\
    exists more, snd (loud w1) = printed w1 more.




(** Proves that a given text is over the two legal symbols. *)
Ltac legal_text :=
  unfold legal, lit; simpl; repeat (apply Forall_cons; [auto|]); apply Forall_nil.


(** ** Executions on the specification's examples *)

Example flip_2 : stack_flip 2 (lit "--+--+") = Ret (lit "+++--+").
Proof. reflexivity. Qed.

Example fix_1 : forall w,
  fix_stack 5 (lit "--+--+") false w = (Ret 3%Z, w).
Proof. intros [i o]. reflexivity. Qed.

Example fix_2 : forall w,
  fix_stack 5 (lit "-+-+-+") false w = (Ret 5%Z, w).
Proof. intros [i o]. reflexivity. Qed.

Example legal_pattern :
  LEGAL_STACK (lit "--+--+") = true /\ LEGAL_STACK [] = true /\
  LEGAL_STACK (lit "--x++") = false /\
  LEGAL_STACK (lit "+" ++ [LF]) = true /\ LEGAL_STACK (lit "+" ++ [LF; LF]) = false /\
  LEGAL_STACK (lit "+" ++ [LF] ++ lit "+") = false.
Proof. repeat split. Qed.

Example fix_illegal : forall fuel verbose w,
  fix_stack fuel (lit "--x++") verbose w
  = (Raise (CharacterError (lit "Not a legal stack: --x++")), w).
Proof. reflexivity. Qed.

(** ** Sequences of orientations *)

Section Runs.

Import Spec.

Lemma same_refl (o : Orientation) : same o o = true.
Proof. destruct o; reflexivity. Qed.

Lemma same_eq (a b : Orientation) : same a b = true <-> a = b.
Proof. destruct a, b; simpl; split; congruence. Qed.

Lemma same_invert (a b : Orientation) : same a b = false -> a = invert b.
Proof. destruct a, b; simpl; congruence. Qed.

Lemma invert_invert (o : Orientation) : invert (invert o) = o.
Proof. destruct o; reflexivity. Qed.

Lemma same_invert_l (o : Orientation) : same (invert o) o = false.
Proof. destruct o; reflexivity. Qed.

Lemma run_le_length (o : Orientation) (s : Stack) : run o s <= length s.
Proof.
  induction s as [|x s IH]; simpl; [lia|].
  destruct (same x o); simpl; lia.
Qed.

Lemma firstn_run (o : Orientation) (s : Stack) :
  firstn (run o s) s = repeat o (run o s).
Proof.
  induction s as [|x s IH]; simpl; [reflexivity|].
  destruct (same x o) eqn:E; simpl; [|reflexivity].
  apply same_eq in E. subst x. now rewrite IH.
Qed.

Lemma run_repeat_app (o : Orientation) (n : nat) (r : Stack) :
  run o (repeat o n ++ r) = n + run o r.
Proof.
  induction n as [|n IH]; simpl; [reflexivity|].
  now rewrite same_refl, IH.
Qed.

Lemma run_all (o : Orientation) (s : Stack) :
  run o s = length s -> s = repeat o (length s).
Proof.
  intros H. rewrite <- H, <- firstn_run, H. symmetry. apply firstn_all.
Qed.

Lemma run_repeat (o : Orientation) (n : nat) : run o (repeat o n) = n.
Proof.
  rewrite <- (app_nil_r (repeat o n)), run_repeat_app. simpl. lia.
Qed.

Lemma skipn_run (o : Orientation) (s : Stack) :
  run o s <> length s ->
  exists rest, skipn (run o s) s = invert o :: rest.
Proof.
  induction s as [|x s IH]; simpl; [congruence|].
  destruct (same x o) eqn:E; simpl.
  - intros H. apply IH. lia.
  - intros _. exists s. f_equal. now apply same_invert.
Qed.

Lemma map_invert_repeat (o : Orientation) (n : nat) :
  map invert (repeat o n) = repeat (invert o) n.
Proof. induction n; simpl; congruence. Qed.

Lemma rev_repeat {A : Type} (a : A) (n : nat) : rev (repeat a n) = repeat a n.
Proof.
  induction n as [|n IH]; simpl; [reflexivity|].
  rewrite IH. clear IH. induction n; simpl; congruence.
Qed.

Lemma length_flip (k : nat) (s : Stack) : length (flip k s) = length s.
Proof.
  unfold flip.
  rewrite length_app, length_map, length_rev, <- length_app, firstn_skipn.
  reflexivity.
Qed.

(** Flipping the whole leading run of [o] turns it into a run of the other
    orientation and leaves the rest. *)
Lemma flip_run (o : Orientation) (s : Stack) :
  flip (run o s) s = repeat (invert o) (run o s) ++ skipn (run o s) s.
Proof.
  unfold flip. now rewrite firstn_run, rev_repeat, map_invert_repeat.
Qed.

Lemma skipn_repeat_app {A : Type} (a : A) (n : nat) (r : list A) :
  skipn n (repeat a n ++ r) = r.
Proof. induction n; simpl; auto. Qed.

(** One round of steps 3-4 on a sequence that is not all up: the up run is
    flipped down, joins the down run behind it, and both come back up. *)
Lemma round_shape (s : Stack) :
  run UP s <> length s ->
  exists rest,
    skipn (run UP s) s = DOWN :: rest /\
    flip (run UP s) s = repeat DOWN (run UP s) ++ DOWN :: rest /\
    run DOWN (flip (run UP s) s) = run UP s + S (run DOWN rest) /\
    flip (run DOWN (flip (run UP s) s)) (flip (run UP s) s)
    = repeat UP (run UP s + S (run DOWN rest)) ++ skipn (run DOWN rest) rest.
Proof.
  intros H. destruct (skipn_run UP s H) as [rest Hrest]. simpl in Hrest.
  exists rest. split; [exact Hrest|].
  assert (F1 : flip (run UP s) s = repeat DOWN (run UP s) ++ DOWN :: rest).
  { rewrite flip_run, Hrest. reflexivity. }
  assert (R1 : run DOWN (flip (run UP s) s) = run UP s + S (run DOWN rest)).
  { rewrite F1, run_repeat_app. reflexivity. }
  repeat split; try assumption.
  rewrite flip_run, R1. simpl invert. f_equal.
  rewrite F1.
  replace (run UP s + S (run DOWN rest)) with (S (run DOWN rest) + run UP s) by lia.
  rewrite <- skipn_skipn, skipn_repeat_app. reflexivity.
Qed.

Lemma round_progress (s : Stack) :
  run UP s <> length s ->
  run UP s < run UP (flip (run DOWN (flip (run UP s) s)) (flip (run UP s) s)).
Proof.
  intros H. destruct (round_shape s H) as (rest & _ & _ & _ & F2).
  rewrite F2, run_repeat_app. lia.
Qed.

End Runs.

(** ** Texts and the sequences they denote *)

Section Texts.

Import Spec.

Lemma legal_show (s : Stack) : legal (show s).
Proof.
  induction s as [|o s IH]; constructor; [|exact IH].
  destruct o; simpl; auto.
Qed.

Lemma parse_show (s : Stack) : parse (show s) = Some s.
Proof.
  induction s as [|o s IH]; simpl; [reflexivity|].
  rewrite IH. destruct o; reflexivity.
Qed.

Lemma legal_parse (text : str) :
  legal text -> exists s, parse text = Some s /\ show s = text.
Proof.
  induction 1 as [|c text Hc _ (s & Hs & Hshow)].
  - exists []. split; reflexivity.
  - destruct Hc as [-> | ->].
    + exists (UP :: s). simpl. rewrite Hs, Hshow. split; reflexivity.
    + exists (DOWN :: s). simpl. rewrite Hs, Hshow. split; reflexivity.
Qed.

Lemma parse_sound (text : str) (s : Stack) :
  parse text = Some s -> show s = text.
Proof.
  revert s. induction text as [|c text IH]; simpl; intros s H.
  - injection H as <-. reflexivity.
  - unfold parse_symbol in H.
    destruct (Ascii.eqb c "+") eqn:E1; [apply Ascii.eqb_eq in E1|
      destruct (Ascii.eqb c "-") eqn:E2; [apply Ascii.eqb_eq in E2|discriminate]];
      destruct (parse text) as [s'|]; try discriminate;
      injection H as <-; simpl; rewrite (IH s' eq_refl); subst c; reflexivity.
Qed.

Lemma length_show (s : Stack) : length (show s) = length s.
Proof. apply length_map. Qed.

Lemma len_show (s : Stack) : len (show s) = Z.of_nat (length s).
Proof. unfold len. now rewrite length_show. Qed.

Lemma show_app (a b : Stack) : show (a ++ b) = show a ++ show b.
Proof. apply map_app. Qed.

Lemma show_repeat (o : Orientation) (n : nat) :
  show (repeat o n) = repeat (symbol o) n.
Proof. induction n; simpl; congruence. Qed.

Lemma show_inj (a b : Stack) : show a = show b -> a = b.
Proof.
  intros H. apply (f_equal parse) in H. rewrite !parse_show in H. congruence.
Qed.

Lemma LEGAL_STACK_legal (text : str) : legal text -> LEGAL_STACK text = true.
Proof.
  induction 1 as [|c text Hc _ IH]; simpl; [reflexivity|].
  destruct Hc as [-> | ->]; exact IH.
Qed.

Lemma inverted_symbol (o : Orientation) : inverted (symbol o) = symbol (invert o).
Proof. destruct o; reflexivity. Qed.

Lemma flip_chars_legal (text : str) :
  legal text -> flip_chars text = Ret (map inverted text).
Proof.
  induction 1 as [|c text Hc _ IH]; simpl; [reflexivity|].
  rewrite IH. destruct Hc as [-> | ->]; reflexivity.
Qed.

Lemma legal_app (a b : str) : legal (a ++ b) <-> legal a /\ legal b.
Proof. apply Forall_app. Qed.

Lemma legal_rev (a : str) : legal a -> legal (rev a).
Proof. apply Forall_rev. Qed.

Lemma legal_map_inverted (a : str) : legal a -> legal (map inverted a).
Proof.
  induction 1 as [|c a Hc _ IH]; constructor; [|exact IH].
  destruct Hc as [-> | ->]; simpl; auto.
Qed.

Lemma inverted_inverted (c : ascii) : inverted (inverted c) = c.
Proof.
  unfold inverted.
  destruct (Ascii.eqb c "+") eqn:E1; [apply Ascii.eqb_eq in E1; now subst|].
  destruct (Ascii.eqb c "-") eqn:E2; [apply Ascii.eqb_eq in E2; now subst|].
  now rewrite E1, E2.
Qed.

Lemma slice_bound_in (k : Z) (n : nat) :
  (0 <= k <= Z.of_nat n)%Z -> slice_bound k n = Z.to_nat k.
Proof.
  intros H. unfold slice_bound.
  destruct (Z.ltb_spec k 0); lia.
Qed.

(** What [stack_flip] returns on a legal text, for a prefix length within
    the text. *)
Lemma stack_flip_legal (k : Z) (text : str) :
  legal text -> (0 <= k <= len text)%Z ->
  stack_flip k text
  = Ret (map inverted (rev (firstn (Z.to_nat k) text)) ++ skipn (Z.to_nat k) text).
Proof.
  intros Hl Hk. unfold stack_flip, split_items, reverse_items.
  rewrite (slice_bound_in k (length text) Hk).
  rewrite flip_chars_legal; [reflexivity|].
  apply legal_rev. rewrite <- (firstn_skipn (Z.to_nat k) text) in Hl.
  now apply legal_app in Hl.
Qed.

Lemma stack_flip_show (k : nat) (s : Stack) :
  k <= length s ->
  stack_flip (Z.of_nat k) (show s) = Ret (show (flip k s)).
Proof.
  intros Hk. rewrite stack_flip_legal.
  - rewrite Nat2Z.id. unfold flip, show.
    rewrite map_app, !map_map, firstn_map, skipn_map, <- map_rev, map_map.
    f_equal. f_equal. apply map_ext. intros o. apply inverted_symbol.
  - apply legal_show.
  - rewrite len_show. lia.
Qed.

Lemma leading_run_show (o : Orientation) (s : Stack) :
  leading_run (symbol o) (show s) = repeat (symbol o) (run o s).
Proof.
  destruct o; induction s as [|x s IH]; simpl in *; try reflexivity;
    destruct x; simpl; try reflexivity; now rewrite IH.
Qed.

Lemma search_leading_run_len (c : ascii) (text : str) :
  match search_leading_run c text with
  | Some group1 => len group1
  | None => 0%Z
  end = len (leading_run c text).
Proof.
  unfold search_leading_run. destruct (leading_run c text); reflexivity.
Qed.

Lemma count_down_show (s : Stack) :
  count_down_items (show s) = Z.of_nat (run DOWN s).
Proof.
  unfold count_down_items, FIRST_DOWN_ITEMS.
  rewrite search_leading_run_len.
  change (len (leading_run (symbol DOWN) (show s)) = Z.of_nat (run DOWN s)).
  rewrite leading_run_show. unfold len. now rewrite repeat_length.
Qed.

Lemma count_up_show (s : Stack) :
  count_up_items (show s) = Z.of_nat (run UP s).
Proof.
  unfold count_up_items, FIRST_UP_ITEMS.
  rewrite search_leading_run_len.
  change (len (leading_run (symbol UP) (show s)) = Z.of_nat (run UP s)).
  rewrite leading_run_show. unfold len. now rewrite repeat_length.
Qed.

Lemma all_up_show (s : Stack) :
  all_up (count_up_items (show s)) (show s) = (length s =? run UP s).
Proof.
  unfold all_up. rewrite count_up_show, len_show.
  destruct (Nat.eqb_spec (length s) (run UP s)); [apply Z.eqb_eq|apply Z.eqb_neq]; lia.
Qed.

End Texts.

(** ** The runs of [fix_stack] on legal texts *)

Section Reducer.

Import Spec.

Lemma printed_nil (w : world) : printed w [] = w.
Proof. destruct w. unfold printed. simpl. now rewrite app_nil_r. Qed.

Lemma printed_app (w : world) (a b : str) :
  printed (printed w a) b = printed w (a ++ b).
Proof. unfold printed. simpl. now rewrite app_assoc. Qed.

Lemma shown_app (verbose : bool) (a b : str) :
  shown verbose a ++ shown verbose b = shown verbose (a ++ b).
Proof. destruct verbose; reflexivity. Qed.

Lemma trace_app (a b : list step) : trace (a ++ b) = trace a ++ trace b.
Proof.
  induction a as [|[k s] a IH]; [reflexivity|].
  cbn [trace app]. rewrite IH, <- !app_assoc. reflexivity.
Qed.

Lemma bind_ret {A B : Type} (c : IO A) (k : A -> IO B) (w w' : world) (a : A) :
  c w = (Ret a, w') -> bind c k w = k a w'.
Proof. intros H. unfold bind. now rewrite H. Qed.

(** The announcement of a prefix length followed by the flip, as both the
    entry and the body of the loop do it, and then the rest [K] of the run. *)
Lemma announced_flip {B : Type} (verbose : bool) (k : nat) (s : Stack)
    (K : str -> IO B) (w : world) :
  k <= length s ->
  ((if verbose then print_end (format_int (Z.of_nat k) ++ lit " ") []
    else ret tt) ;;;
   items <- flip_and_print (Z.of_nat k) (show s) verbose ;;
   K items) w
  = K (show (flip k s)) (printed w (shown verbose (trace [(k, flip k s)]))).
Proof.
  intros Hk. unfold flip_and_print, bind, lift.
  destruct verbose; cbn [print_end print ret shown trace];
    rewrite (stack_flip_show k s Hk); cbn [print_end print ret].
  - f_equal. unfold printed. cbn [stdin stdout]. f_equal.
    rewrite !app_nil_r, <- !app_assoc. reflexivity.
  - now rewrite printed_nil.
Qed.

Lemma finished_locals_of (s : Stack) (count : Z) :
  finished (locals_of s count) = (length s =? run UP s).
Proof. apply all_up_show. Qed.

(** One run of the body on a sequence that is not all up. *)
Lemma fix_stack_body_round (verbose : bool) (s : Stack) (count : Z) (w : world) :
  let s1 := flip (run UP s) s in
  let s2 := flip (run DOWN s1) s1 in
  fix_stack_body verbose (locals_of s count) w
  = (Ret (locals_of s2 (count + 1 + 1)),
     printed w (shown verbose (trace [(run UP s, s1); (run DOWN s1, s2)]))).
Proof.
  intros s1 s2. unfold fix_stack_body.
  cbn [locals_of up_count items flip_count].
  rewrite count_up_show.
  rewrite announced_flip by apply run_le_length. fold s1.
  rewrite count_down_show.
  rewrite announced_flip by apply run_le_length. fold s2.
  unfold ret, locals_of. f_equal.
  rewrite printed_app, shown_app. do 2 f_equal.
  cbn [trace]. rewrite <- !app_assoc. reflexivity.
Qed.

Lemma fix_stack_while_finished (fuel : nat) (verbose : bool) (st : locals) (w : world) :
  finished st = true -> fix_stack_while fuel verbose st w = (Ret st, w).
Proof. intros H. destruct fuel; simpl; now rewrite H. Qed.

Lemma fix_stack_while_again (fuel : nat) (verbose : bool) (st : locals) (w : world) :
  finished st = false ->
  fix_stack_while (S fuel) verbose st w
  = (st' <- fix_stack_body verbose st ;; fix_stack_while fuel verbose st') w.
Proof. intros H. simpl. now rewrite H. Qed.

(** The loop on a sequence whose unresolved part (what lies behind the
    leading up run) has at most [m] elements: it makes the steps of the
    specification's loop, within [m] runs of the body. *)
Lemma fix_stack_while_runs (m : nat) :
  forall (s : Stack) (count : Z),
    length s - run UP s <= m ->
    exists steps result s',
      main_loop s count steps result /\
      run UP s' = length s' /\ length s' = length s /\
      (count <= result <= count + 2 * Z.of_nat (length s - run UP s))%Z /\
      forall fuel verbose w,
        length s - run UP s <= fuel ->
        fix_stack_while fuel verbose (locals_of s count) w
        = (Ret (locals_of s' result), printed w (shown verbose (trace steps))).
Proof.
  induction m as [|m IH]; intros s count Hm.
  - assert (E : run UP s = length s) by (pose proof (run_le_length UP s); lia).
    exists [], count, s. repeat split; try lia.
    + now constructor.
    + intros fuel verbose w _. rewrite fix_stack_while_finished.
      * destruct verbose; simpl; now rewrite printed_nil.
      * rewrite finished_locals_of. apply Nat.eqb_eq. lia.
  - destruct (Nat.eq_dec (run UP s) (length s)) as [E | N].
    + exists [], count, s. repeat split; try lia.
      * now constructor.
      * intros fuel verbose w _. rewrite fix_stack_while_finished.
        -- destruct verbose; simpl; now rewrite printed_nil.
        -- rewrite finished_locals_of. apply Nat.eqb_eq. lia.
    + pose (s1 := flip (run UP s) s). pose (s2 := flip (run DOWN s1) s1).
      assert (L2 : length s2 = length s).
      { unfold s2, s1. now rewrite !length_flip. }
      assert (P : run UP s < run UP s2) by (apply round_progress; exact N).
      pose proof (run_le_length UP s2) as B2.
      destruct (IH s2 (count + 1 + 1)%Z) as (steps & result & s' & Hloop & Hup & Hlen & Hres & Hrun);
        [lia|].
      exists ((run UP s, s1) :: (run DOWN s1, s2) :: steps), result, s'.
      repeat split; try lia.
      * econstructor; eauto.
      * intros fuel verbose w Hfuel.
        destruct fuel as [|fuel]; [lia|].
        rewrite fix_stack_while_again.
        2:{ rewrite finished_locals_of. apply Nat.eqb_neq. lia. }
        rewrite (bind_ret _ _ _ _ _ (fix_stack_body_round verbose s count w)).
        fold s1 s2. rewrite Hrun by lia.
        rewrite printed_app, shown_app, <- trace_app. reflexivity.
Qed.

Lemma main_loop_functional (s : Stack) (count : Z) (steps : list step) (result : Z) :
  main_loop s count steps result ->
  forall steps' result',
    main_loop s count steps' result' -> steps' = steps /\ result' = result.
Proof.
  induction 1 as [s count E | s count s1 s2 steps result N E1 E2 _ IH];
    intros steps' result' H'; inversion H'; subst; try contradiction.
  - split; reflexivity.
  - match goal with H : main_loop _ _ _ _ |- _ => destruct (IH _ _ H) as [-> ->] end.
    split; reflexivity.
Qed.

Lemma reduce_functional (s : Stack) (steps : list step) (result : Z) :
  reduce s steps result ->
  forall steps' result',
    reduce s steps' result' -> steps' = steps /\ result' = result.
Proof.
  intros H steps' result' H'.
  destruct H; inversion H'; subst;
    match goal with
    | H1 : main_loop ?s ?c _ _, H2 : main_loop ?s ?c _ _ |- _ =>
        destruct (main_loop_functional _ _ _ _ H1 _ _ H2) as [-> ->]
    end; split; reflexivity.
Qed.

(** [fix_stack] up to the first test of the loop, on a non-empty sequence. *)
Lemma fix_stack_entry_show (o : Orientation) (rest : Stack) (verbose : bool) (w : world) :
  let s := o :: rest in
  fix_stack_entry (show s) verbose w
  = match o with
    | DOWN =>
        (Ret (locals_of (flip (run DOWN s) s) (0 + 1)),
         printed w (shown verbose (trace [(run DOWN s, flip (run DOWN s) s)])))
    | UP => (Ret (locals_of s 0), w)
    end.
Proof.
  intros s. unfold fix_stack_entry.
  rewrite (LEGAL_STACK_legal _ (legal_show s)). cbn [negb].
  destruct o.
  - reflexivity.
  - unfold bind at 1. unfold lift.
    change (first_down (show s)) with (@Ret bool true). cbv iota beta.
    unfold bind at 1.
    rewrite count_down_show.
    rewrite (announced_flip verbose (run DOWN s) s (fun items => ret (items, (0 + 1)%Z)))
      by apply run_le_length.
    reflexivity.
Qed.

(** The whole run on a non-empty sequence. *)
Lemma fix_stack_run_show (s : Stack) :
  s <> [] ->
  exists steps result s',
    reduce s steps result /\
    run UP s' = length s' /\ length s' = length s /\
    (0 <= result <= 2 * Z.of_nat (length s) - 1)%Z /\
    forall fuel verbose w,
      length s - 1 <= fuel ->
      fix_stack_run fuel (show s) verbose w
      = (Ret (locals_of s' result), printed w (shown verbose (trace steps))).
Proof.
  destruct s as [|o rest]; [congruence|]. intros _.
  destruct o.
  - pose proof (run_le_length UP rest) as B.
    destruct (fix_stack_while_runs (length rest) (UP :: rest) 0%Z)
      as (steps & result & s' & Hloop & Hup & Hlen & Hres & Hrun).
    { simpl. lia. }
    exists steps, result, s'. simpl run in *. simpl length in *.
    repeat split; try lia.
    + now constructor.
    + intros fuel verbose w Hfuel. unfold fix_stack_run.
      rewrite (bind_ret _ _ _ _ _ (fix_stack_entry_show UP rest verbose w)).
      apply Hrun. lia.
  - set (s := DOWN :: rest). set (s1 := flip (run DOWN s) s).
    assert (L1 : length s1 = length s) by apply length_flip.
    assert (U1 : 1 <= run UP s1).
    { unfold s1. rewrite flip_run, run_repeat_app. simpl. lia. }
    pose proof (run_le_length UP s1) as B.
    destruct (fix_stack_while_runs (length rest) s1 (0 + 1)%Z)
      as (steps & result & s' & Hloop & Hup & Hlen & Hres & Hrun).
    { simpl in L1. lia. }
    exists ((run DOWN s, s1) :: steps), result, s'. simpl length in *.
    repeat split; try lia.
    + now constructor.
    + intros fuel verbose w Hfuel. unfold fix_stack_run.
      rewrite (bind_ret _ _ _ _ _ (fix_stack_entry_show DOWN rest verbose w)).
      fold s s1. rewrite Hrun by lia.
      rewrite printed_app, shown_app, <- trace_app. reflexivity.
Qed.

(** The run on a legal, non-empty text, through the sequence it denotes. *)
Lemma fix_stack_run_legal (text : str) :
  text <> [] -> legal text ->
  exists s steps result s',
    parse text = Some s /\ reduce s steps result /\
    run UP s' = length s' /\ length s' = length text /\
    (0 <= result <= 2 * len text - 1)%Z /\
    forall fuel verbose w,
      length text - 1 <= fuel ->
      fix_stack_run fuel text verbose w
      = (Ret (locals_of s' result), printed w (shown verbose (trace steps))).
Proof.
  intros Hne Hl. destruct (legal_parse text Hl) as (s & Hparse & Hshow).
  assert (Hs : s <> []) by (intros ->; now apply Hne).
  destruct (fix_stack_run_show s Hs) as (steps & result & s' & Hred & Hup & Hlen & Hres & Hrun).
  exists s, steps, result, s'. subst text. unfold len. rewrite length_show.
  repeat split; try assumption; lia.
Qed.

(** C1. On every non-empty text over '+' and '-', [fix_stack] makes exactly
    the steps the specification fixes, in their order: the text denotes a
    sequence [s]; the specification's reducer, which flips the leading down
    run once if the first element is down and then alternates a flip of the
    leading up run with a flip of the new leading down run until the up run
    is the whole sequence, makes the steps [steps] and returns [result] on
    [s], and nothing else; and [fix_stack], allowed as many iterations as
    the text has characters less one, returns [result], having printed in
    verbose mode the prefix length and the outcome of each of these steps
    and in silent mode nothing. *)
Theorem fix_stack_greedy_order (text : str) :
  text <> [] -> legal text ->
  exists s steps result,
    parse text = Some s /\
    reduce s steps result /\
    (forall steps' result',
        reduce s steps' result' -> steps' = steps /\ result' = result) /\
    forall fuel verbose w,
      length text - 1 <= fuel ->
      fix_stack fuel text verbose w
      = (Ret result, printed w (shown verbose (trace steps))).
Proof.
  intros Hne Hl.
  destruct (fix_stack_run_legal text Hne Hl)
    as (s & steps & result & s' & Hparse & Hred & _ & _ & _ & Hrun).
  exists s, steps, result. repeat split; try assumption.
  - eapply reduce_functional; eassumption.
  - eapply reduce_functional; eassumption.
  - intros fuel verbose w Hfuel. unfold fix_stack.
    rewrite (bind_ret _ _ _ _ _ (Hrun fuel verbose w Hfuel)). reflexivity.
Qed.

Lemma fix_stack_greedy_order_witness :
  lit "--+--+" <> [] /\ legal (lit "--+--+") /\
  exists s steps result,
    parse (lit "--+--+") = Some s /\
    reduce s steps result /\
    (forall steps' result',
        reduce s steps' result' -> steps' = steps /\ result' = result) /\
    forall fuel verbose w,
      length (lit "--+--+") - 1 <= fuel ->
      fix_stack fuel (lit "--+--+") verbose w
      = (Ret result, printed w (shown verbose (trace steps))).
Proof.
  assert (N : lit "--+--+" <> []) by discriminate.
  assert (L : legal (lit "--+--+")) by legal_text.
  exact (conj N (conj L (fix_stack_greedy_order (lit "--+--+") N L))).
Defined.

(** C2. For every text [s] over '+' and '-' and every prefix length [k] with
    [1 <= k <= len s], [stack_flip k s] returns the first [k] characters
    reversed and each inverted, followed by the characters from position
    [k] on, unchanged. *)
Theorem stack_flip_prefix (k : Z) (s : str) :
  legal s -> (1 <= k <= len s)%Z ->
  stack_flip k s
  = Ret (map inverted (rev (firstn (Z.to_nat k) s)) ++ skipn (Z.to_nat k) s).
Proof.
  intros Hl Hk. apply stack_flip_legal; [exact Hl | lia].
Qed.

Lemma stack_flip_prefix_witness :
  legal (lit "--+--+") /\ (1 <= 2 <= len (lit "--+--+"))%Z /\
  stack_flip 2 (lit "--+--+")
  = Ret (map inverted (rev (firstn (Z.to_nat 2) (lit "--+--+")))
         ++ skipn (Z.to_nat 2) (lit "--+--+")).
Proof.
  assert (L : legal (lit "--+--+")) by legal_text.
  assert (K : (1 <= 2 <= len (lit "--+--+"))%Z) by (vm_compute; split; discriminate).
  exact (conj L (conj K (stack_flip_prefix 2 (lit "--+--+") L K))).
Defined.

(** C4. For every non-empty text over '+' and '-', [fix_stack] terminates:
    its loop needs no more iterations than the text has characters less
    one, and it returns a count that is at least 0 (and below twice the
    length of the text). *)
Theorem fix_stack_terminates (text : str) :
  text <> [] -> legal text ->
  exists result,
    (0 <= result <= 2 * len text - 1)%Z /\
    forall fuel verbose w,
      length text - 1 <= fuel ->
      exists w', fix_stack fuel text verbose w = (Ret result, w').
Proof.
  intros Hne Hl.
  destruct (fix_stack_run_legal text Hne Hl)
    as (s & steps & result & s' & _ & _ & _ & _ & Hres & Hrun).
  exists result. split; [exact Hres|].
  intros fuel verbose w Hfuel. eexists. unfold fix_stack.
  rewrite (bind_ret _ _ _ _ _ (Hrun fuel verbose w Hfuel)). reflexivity.
Qed.

Lemma fix_stack_terminates_witness :
  lit "-+-+-+" <> [] /\ legal (lit "-+-+-+") /\
  exists result,
    (0 <= result <= 2 * len (lit "-+-+-+") - 1)%Z /\
    forall fuel verbose w,
      length (lit "-+-+-+") - 1 <= fuel ->
      exists w', fix_stack fuel (lit "-+-+-+") verbose w = (Ret result, w').
Proof.
  assert (N : lit "-+-+-+" <> []) by discriminate.
  assert (L : legal (lit "-+-+-+")) by legal_text.
  exact (conj N (conj L (fix_stack_terminates (lit "-+-+-+") N L))).
Defined.

End Reducer.

(** ** Flips of arbitrary texts *)

Section Flips.

Lemma flip_chars_length (text flipped : str) :
  flip_chars text = Ret flipped -> length flipped = length text.
Proof.
  revert flipped. induction text as [|c text IH]; simpl; intros flipped H.
  - injection H as <-. reflexivity.
  - destruct (flip_char c); try discriminate. simpl in H.
    destruct (flip_chars text) as [ys| |]; try discriminate. simpl in H.
    injection H as <-. simpl. now rewrite (IH ys eq_refl).
Qed.

(** Whatever the prefix length, a flip that returns keeps the length. *)
Lemma stack_flip_length (k : Z) (text flipped : str) :
  stack_flip k text = Ret flipped -> length flipped = length text.
Proof.
  unfold stack_flip, split_items, reverse_items. intros H.
  destruct (flip_chars (rev (firstn (slice_bound k (length text)) text)))
    as [part| |] eqn:E; try discriminate.
  simpl in H. injection H as <-.
  apply flip_chars_length in E.
  rewrite length_app, E, length_rev, <- length_app, firstn_skipn. reflexivity.
Qed.

Lemma map_inverted_involutive (text : str) : map inverted (map inverted text) = text.
Proof.
  rewrite map_map. rewrite <- (map_id text) at 2.
  apply map_ext. apply inverted_inverted.
Qed.

(** C9. For every text [s] over '+' and '-' and every [k] with
    [0 <= k <= len s], [stack_flip k s] returns a text of the length of [s],
    and flipping that text again at the same prefix length gives [s] back. *)
Theorem stack_flip_involution (k : Z) (s : str) :
  legal s -> (0 <= k <= len s)%Z ->
  exists s1,
    stack_flip k s = Ret s1 /\ length s1 = length s /\ stack_flip k s1 = Ret s.
Proof.
  intros Hl Hk.
  pose proof (stack_flip_legal k s Hl Hk) as E1.
  set (n := Z.to_nat k) in *.
  set (s1 := map inverted (rev (firstn n s)) ++ skipn n s) in *.
  assert (Hn : n <= length s) by (unfold len in Hk; lia).
  assert (L1 : length s1 = length s) by (now apply (stack_flip_length k)).
  assert (Hl' : legal (firstn n s) /\ legal (skipn n s)).
  { apply legal_app. now rewrite firstn_skipn. }
  assert (Hl1 : legal s1).
  { apply legal_app. split; [|apply Hl'].
    apply legal_map_inverted, legal_rev, Hl'. }
  exists s1. repeat split; try assumption.
  rewrite stack_flip_legal; [|exact Hl1|unfold len in *; lia].
  fold n. f_equal.
  assert (P : length (map inverted (rev (firstn n s))) = n).
  { rewrite length_map, length_rev, length_firstn. lia. }
  unfold s1.
  rewrite firstn_app, skipn_app, P, Nat.sub_diag. cbn [firstn skipn].
  rewrite app_nil_r.
  rewrite <- P at 1 3. rewrite firstn_all, skipn_all. cbn [app].
  rewrite <- map_rev, rev_involutive, map_inverted_involutive.
  apply firstn_skipn.
Qed.

Lemma stack_flip_involution_witness :
  legal (lit "-+-+-+") /\ (0 <= 3 <= len (lit "-+-+-+"))%Z /\
  exists s1,
    stack_flip 3 (lit "-+-+-+") = Ret s1 /\
    length s1 = length (lit "-+-+-+") /\
    stack_flip 3 s1 = Ret (lit "-+-+-+").
Proof.
  assert (L : legal (lit "-+-+-+")) by legal_text.
  assert (K : (0 <= 3 <= len (lit "-+-+-+"))%Z) by (vm_compute; split; discriminate).
  exact (conj L (conj K (stack_flip_involution 3 (lit "-+-+-+") L K))).
Defined.

End Flips.

(** ** Uniform texts, and the state a run ends in *)

Section Terminal.

Import Spec.

Lemma uniform_text (o : Orientation) (text : str) :
  Forall (fun c => c = symbol o) text -> text = show (repeat o (length text)).
Proof.
  induction 1 as [|c text Hc _ IH]; simpl; [reflexivity|].
  now rewrite <- IH, Hc.
Qed.

Lemma show_uniform (o : Orientation) (n : nat) :
  show (repeat o n) = repeat (symbol o) n.
Proof. apply show_repeat. Qed.

Lemma flip_uniform (o : Orientation) (n : nat) :
  flip (run o (repeat o n)) (repeat o n) = repeat (invert o) n.
Proof.
  rewrite flip_run, run_repeat, skipn_all2 by (rewrite repeat_length; lia).
  apply app_nil_r.
Qed.

Lemma locals_of_all_up (n : nat) (count : Z) :
  locals_of (repeat UP n) count
  = {| items := repeat "+"%char n; flip_count := count;
       up_count := Z.of_nat n; finished := true |}.
Proof.
  unfold locals_of. rewrite all_up_show, count_up_show, run_repeat, repeat_length.
  rewrite Nat.eqb_refl, show_repeat. reflexivity.
Qed.

Lemma bind_inv {A B : Type} (c : IO A) (k : A -> IO B) (w w' : world) (b : B) :
  bind c k w = (Ret b, w') ->
  exists a w1, c w = (Ret a, w1) /\ k a w1 = (Ret b, w').
Proof.
  unfold bind. destruct (c w) as [[a| |] w1]; try discriminate.
  intros H. now exists a, w1.
Qed.

Lemma flip_and_print_inv (k : Z) (text : str) (verbose : bool) (w w' : world) (text' : str) :
  flip_and_print k text verbose w = (Ret text', w') -> stack_flip k text = Ret text'.
Proof.
  unfold flip_and_print, bind, lift.
  destruct (stack_flip k text) as [t| |]; try discriminate.
  destruct verbose; cbn [print print_end ret]; intros H; injection H as <- _; reflexivity.
Qed.

Lemma fix_stack_entry_inv (text : str) (verbose : bool) (w w' : world) (st : locals) :
  fix_stack_entry text verbose w = (Ret st, w') ->
  text <> [] /\ length (items st) = length text /\ coherent st.
Proof.
  unfold fix_stack_entry.
  destruct (LEGAL_STACK text); cbn [negb]; [|discriminate].
  intros H. apply bind_inv in H as (down & w1 & Hd & H).
  unfold lift in Hd. injection Hd as Hd <-.
  assert (Hne : text <> []) by (intros ->; discriminate).
  apply bind_inv in H as ([text1 count] & w2 & H1 & H).
  unfold ret in H. injection H as <- <-.
  cbn [items up_count finished]. unfold coherent. cbn [items up_count finished].
  repeat split; try assumption.
  destruct down.
  - apply bind_inv in H1 as (u & w3 & _ & H1).
    apply bind_inv in H1 as (text2 & w4 & Hf & H1).
    unfold ret in H1. injection H1 as <- _ _.
    apply flip_and_print_inv in Hf. now apply stack_flip_length in Hf.
  - unfold ret in H1. now injection H1 as <- _ _.
Qed.

Lemma fix_stack_body_inv (verbose : bool) (st st' : locals) (w w' : world) :
  fix_stack_body verbose st w = (Ret st', w') ->
  length (items st') = length (items st) /\ coherent st'.
Proof.
  unfold fix_stack_body. intros H.
  apply bind_inv in H as (u1 & w1 & _ & H).
  apply bind_inv in H as (text1 & w2 & F1 & H).
  apply bind_inv in H as (u2 & w3 & _ & H).
  apply bind_inv in H as (text2 & w4 & F2 & H).
  unfold ret in H. injection H as <- _.
  unfold coherent. cbn [items up_count finished].
  apply flip_and_print_inv, stack_flip_length in F1.
  apply flip_and_print_inv, stack_flip_length in F2.
  repeat split. congruence.
Qed.

Lemma fix_stack_while_inv (fuel : nat) (verbose : bool) :
  forall (st st' : locals) (w w' : world),
    fix_stack_while fuel verbose st w = (Ret st', w') ->
    coherent st ->
    length (items st') = length (items st) /\ coherent st' /\ finished st' = true.
Proof.
  induction fuel as [|fuel IH]; intros st st' w w' H Hc; simpl in H;
    destruct (finished st) eqn:E.
  - unfold ret in H. injection H as <- _. split; [reflexivity | split; assumption].
  - discriminate.
  - unfold ret in H. injection H as <- _. split; [reflexivity | split; assumption].
  - apply bind_inv in H as (st1 & w1 & Hb & H).
    apply fix_stack_body_inv in Hb as [L1 C1].
    destruct (IH _ _ _ _ H C1) as (L & C & F).
    split; [congruence | split; assumption].
Qed.

Lemma leading_run_whole (c : ascii) (text : str) :
  length (leading_run c text) = length text -> Forall (fun x => x = c) text.
Proof.
  induction text as [|x text IH]; simpl; [constructor|].
  destruct (Ascii.eqb x c) eqn:E; simpl; [|discriminate].
  intros H. constructor; [now apply Ascii.eqb_eq|]. apply IH. lia.
Qed.

(** When the loop is left, every item is up. *)
Lemma finished_all_up (st : locals) :
  coherent st -> finished st = true -> Forall (fun c => c = "+"%char) (items st).
Proof.
  intros [Hu Hf] F. rewrite Hf, Hu in F. unfold all_up in F.
  apply Z.eqb_eq in F. unfold count_up_items, FIRST_UP_ITEMS in F.
  rewrite search_leading_run_len in F. unfold len in F.
  apply leading_run_whole. lia.
Qed.

Lemma fix_stack_all_up (text : str) :
  text <> [] -> Forall (fun c => c = "+"%char) text ->
  forall fuel verbose w,
    fix_stack_run fuel text verbose w
    = (Ret {| items := text; flip_count := 0; up_count := len text; finished := true |}, w).
Proof.
  intros Hne Hall fuel verbose w.
  pose proof (uniform_text UP text Hall) as E.
  destruct (length text) as [|n] eqn:L; [destruct text; [congruence|discriminate]|].
  unfold fix_stack_run, len. rewrite L, E.
  rewrite (bind_ret _ _ _ _ _ (fix_stack_entry_show UP (repeat UP n) verbose w)).
  change (UP :: repeat UP n) with (repeat UP (S n)).
  rewrite locals_of_all_up, fix_stack_while_finished by reflexivity.
  now rewrite show_uniform.
Qed.

(** C6. On every non-empty text whose elements are all '+', [fix_stack]
    performs no flip (the items are unchanged and nothing is printed, even
    in verbose mode) and returns 0; and every run of [fix_stack] that
    returns ends with items that are all '+', so that running [fix_stack]
    on them returns 0. *)
Theorem all_up_is_terminal :
  (forall text : str,
      text <> [] -> Forall (fun c => c = "+"%char) text ->
      forall fuel verbose w,
        fix_stack_run fuel text verbose w
        = (Ret {| items := text; flip_count := 0; up_count := len text;
                  finished := true |}, w) /\
        fix_stack fuel text verbose w = (Ret 0%Z, w)) /\
  (forall (text : str) fuel verbose w st w',
      fix_stack_run fuel text verbose w = (Ret st, w') ->
      items st <> [] /\ Forall (fun c => c = "+"%char) (items st) /\
      forall fuel' verbose' w2,
        fix_stack fuel' (items st) verbose' w2 = (Ret 0%Z, w2)).
Proof.
  split.
  - intros text Hne Hall fuel verbose w.
    pose proof (fix_stack_all_up text Hne Hall fuel verbose w) as E.
    split; [exact E|]. unfold fix_stack.
    now rewrite (bind_ret _ _ _ _ _ E).
  - intros text fuel verbose w st w' H. unfold fix_stack_run in H.
    apply bind_inv in H as (st0 & w0 & He & Hw).
    apply fix_stack_entry_inv in He as (Hne & L0 & C0).
    apply fix_stack_while_inv in Hw as (L & C & F); [|exact C0].
    assert (N : items st <> []).
    { intros E. rewrite E in L. simpl in L. destruct text; [congruence|].
      rewrite L0 in L. discriminate. }
    pose proof (finished_all_up st C F) as A.
    repeat split; try assumption.
    intros fuel' verbose' w2. unfold fix_stack.
    now rewrite (bind_ret _ _ _ _ _ (fix_stack_all_up _ N A fuel' verbose' w2)).
Qed.

Lemma all_up_is_terminal_witness :
  (lit "+++" <> [] /\ Forall (fun c => c = "+"%char) (lit "+++") /\
   fix_stack 0 (lit "+++") true (World [] []) = (Ret 0%Z, World [] [])) /\
  (fix_stack_run 5 (lit "--+--+") false (World [] [])
   = (Ret (Locals (lit "++++++") 3 6 true), World [] []) /\
   fix_stack 0 (lit "++++++") true (World [] []) = (Ret 0%Z, World [] [])).
Proof.
  assert (N : lit "+++" <> []) by discriminate.
  assert (F : Forall (fun c => c = "+"%char) (lit "+++")) by (repeat constructor).
  assert (R : fix_stack_run 5 (lit "--+--+") false (World [] [])
              = (Ret (Locals (lit "++++++") 3 6 true), World [] [])) by reflexivity.
  split.
  - exact (conj N (conj F (proj2 (proj1 all_up_is_terminal (lit "+++") N F
                                   0 true (World [] []))))).
  - exact (conj R (proj2 (proj2 (proj2 all_up_is_terminal (lit "--+--+") 5 false
                                   (World [] []) _ _ R)) 0 true (World [] []))).
Defined.

(** C7. On every non-empty text whose elements are all '-', the first
    element is down, the leading down run is the whole text, the flip of
    that prefix length gives the text of as many '+', and [fix_stack]
    reaches the first test of its loop with these items, one flip counted
    and [finished] set, so that it returns 1 without any run of the loop's
    body (with no iteration allowed it returns all the same), having
    printed that one step in verbose mode. *)
Theorem all_down_single_flip (text : str) :
  text <> [] -> Forall (fun c => c = "-"%char) text ->
  first_down text = Ret true /\
  count_down_items text = len text /\
  stack_flip (len text) text = Ret (repeat "+"%char (length text)) /\
  forall fuel verbose w,
    let out := printed w (shown verbose
                 (format_int (len text) ++ lit " " ++
                  repeat "+"%char (length text) ++ [LF])) in
    fix_stack_entry text verbose w
    = (Ret {| items := repeat "+"%char (length text); flip_count := 1;
              up_count := len text; finished := true |}, out) /\
    fix_stack fuel text verbose w = (Ret 1%Z, out).
Proof.
  intros Hne Hall.
  pose proof (uniform_text DOWN text Hall) as E.
  destruct (length text) as [|n] eqn:L; [destruct text; [congruence|discriminate]|].
  unfold len. rewrite L. set (s := repeat DOWN (S n)) in *.
  assert (R : run DOWN s = S n) by apply run_repeat.
  assert (Fl : flip (run DOWN s) s = repeat UP (S n)) by apply (flip_uniform DOWN).
  assert (En : forall verbose w,
    fix_stack_entry text verbose w
    = (Ret {| items := repeat "+"%char (S n); flip_count := 1;
              up_count := Z.of_nat (S n); finished := true |},
       printed w (shown verbose (format_int (Z.of_nat (S n)) ++ lit " " ++
                  repeat "+"%char (S n) ++ [LF])))).
  { intros verbose w. rewrite E.
    pose proof (fix_stack_entry_show DOWN (repeat DOWN n) verbose w) as H.
    cbv zeta in H. change (DOWN :: repeat DOWN n) with s in H.
    rewrite H, Fl, R, locals_of_all_up. cbn [trace].
    rewrite show_uniform, app_nil_r. reflexivity. }
  repeat split.
  - rewrite E. reflexivity.
  - rewrite E, count_down_show, R. reflexivity.
  - rewrite E, <- R, stack_flip_show by apply run_le_length.
    rewrite Fl, show_uniform, R. reflexivity.
  - apply En.
  - pose proof (bind_ret _ (fix_stack_while fuel verbose) _ _ _ (En verbose w)) as Rn.
    rewrite fix_stack_while_finished in Rn by reflexivity.
    unfold fix_stack. unfold fix_stack_run at 1.
    now rewrite (bind_ret _ _ _ _ _ Rn).
Qed.

Lemma all_down_single_flip_witness :
  lit "---" <> [] /\ Forall (fun c => c = "-"%char) (lit "---") /\
  fix_stack 0 (lit "---") true (World [] [])
  = (Ret 1%Z, World [] (lit "3 +++" ++ [LF])).
Proof.
  assert (N : lit "---" <> []) by discriminate.
  assert (F : Forall (fun c => c = "-"%char) (lit "---")) by (repeat constructor).
  exact (conj N (conj F
    (proj2 (proj2 (proj2 (proj2 (all_down_single_flip (lit "---") N F)))
                  0 true (World [] []))))).
Defined.

End Terminal.

(** ** The tests of the loop *)

Section LoopTests.

Import Spec.

(** Every test of the loop, in a run on a non-empty sequence, sees a
    sequence with a leading up run, after one flip if the first element was
    down and two more for each run of the body. *)
Lemma at_loop_test_shape (o : Orientation) (rest : Stack) (verbose : bool) (w0 : world) :
  forall k st w,
    at_loop_test (show (o :: rest)) verbose w0 k st w ->
    exists s,
      1 <= run UP s /\
      st = locals_of s ((if same o DOWN then 1 else 0) + 2 * Z.of_nat k).
Proof.
  induction 1 as [st w He | k st w st' w' _ IH Hf Hb].
  - rewrite fix_stack_entry_show in He. destruct o; injection He as <- _.
    + exists (UP :: rest). split; [simpl; lia | reflexivity].
    + exists (flip (run DOWN (DOWN :: rest)) (DOWN :: rest)). split; [|reflexivity].
      rewrite flip_run, run_repeat_app. simpl. lia.
  - destruct IH as (s & Hs & ->).
    rewrite finished_locals_of in Hf. apply Nat.eqb_neq in Hf.
    rewrite fix_stack_body_round in Hb.
    assert (E : Ret (A := locals) st' = Ret _) by (symmetry; exact (f_equal fst Hb)).
    exists (flip (run DOWN (flip (run UP s) s)) (flip (run UP s) s)). split.
    + pose proof (round_progress s) as P. lia.
    + replace st' with
        (locals_of (flip (run DOWN (flip (run UP s) s)) (flip (run UP s) s))
           ((if same o DOWN then 1 else 0) + 2 * Z.of_nat k + 1 + 1)) by congruence.
      f_equal. lia.
Qed.

(** C8. In the run of [fix_stack] on a non-empty text over '+' and '-',
    every evaluation of the loop's test sees items that begin with '+', an
    [up_count] that is the leading up run of these items and at least 1, and
    a first item that is not down; and the [k]-th evaluation (from 0) sees
    a flip count of 2k, plus 1 if the first element of the text was down:
    the flip of the leading down run is counted once, before the loop, and
    each run of the body counts its own two flips. *)
Theorem loop_test_begins_up (text : str) :
  text <> [] -> legal text ->
  forall verbose w0 k st w,
    at_loop_test text verbose w0 k st w ->
    (exists rest, items st = "+"%char :: rest) /\
    (1 <= up_count st)%Z /\
    up_count st = count_up_items (items st) /\
    first_down (items st) = Ret false /\
    flip_count st
    = ((match first_down text with Ret true => 1 | _ => 0 end)
       + 2 * Z.of_nat k)%Z.
Proof.
  intros Hne Hl verbose w0 k st w H.
  destruct (legal_parse text Hl) as (s0 & _ & <-).
  destruct s0 as [|o rest]; [exfalso; now apply Hne|].
  destruct (at_loop_test_shape o rest verbose w0 k st w H) as (s & Hs & ->).
  cbn [locals_of items up_count flip_count].
  destruct s as [|x s]; [simpl in Hs; lia|].
  destruct x; [|simpl in Hs; lia].
  repeat split.
  - now exists (show s).
  - rewrite count_up_show. lia.
  - destruct o; reflexivity.
Qed.

Lemma loop_test_begins_up_witness :
  lit "+-" <> [] /\ legal (lit "+-") /\
  at_loop_test (lit "+-") false (World [] []) 1
    (Locals (lit "++") 2 2 true) (World [] []) /\
  (exists rest, lit "++" = "+"%char :: rest) /\
  (1 <= 2)%Z /\
  2%Z = count_up_items (lit "++") /\
  first_down (lit "++") = Ret false /\
  2%Z = ((match first_down (lit "+-") with Ret true => 1 | _ => 0 end)
         + 2 * Z.of_nat 1)%Z.
Proof.
  assert (N : lit "+-" <> []) by discriminate.
  assert (L : legal (lit "+-")) by legal_text.
  assert (T : at_loop_test (lit "+-") false (World [] []) 1
                (Locals (lit "++") 2 2 true) (World [] [])).
  { eapply test_next; [apply test_first; reflexivity | reflexivity | reflexivity]. }
  exact (conj N (conj L (conj T
    (loop_test_begins_up (lit "+-") N L false (World [] []) 1 _ _ T)))).
Defined.

Lemma fix_stack_while_out (verbose : bool) (st : locals) (w : world) :
  finished st = false -> fix_stack_while 0 verbose st w = (Diverge, w).
Proof. intros H. simpl. now rewrite H. Qed.

Lemma fix_stack_while_outcome (fuel : nat) (verbose : bool) :
  forall (s : Stack) (count : Z) (w : world),
    (exists st w', fix_stack_while fuel verbose (locals_of s count) w = (Ret st, w')) \/
    (exists w', fix_stack_while fuel verbose (locals_of s count) w = (Diverge, w')).
Proof.
  induction fuel as [|fuel IH]; intros s count w;
    destruct (finished (locals_of s count)) eqn:F.
  - left. rewrite fix_stack_while_finished by exact F. eauto.
  - right. rewrite fix_stack_while_out by exact F. eauto.
  - left. rewrite fix_stack_while_finished by exact F. eauto.
  - rewrite fix_stack_while_again by exact F.
    rewrite (bind_ret _ _ _ _ _ (fix_stack_body_round verbose s count w)).
    apply IH.
Qed.

(** C10. On a non-empty text over '+' and '-' the access to the first
    character is in bounds, and [fix_stack] raises no [IndexError],
    however many iterations it is allowed; on the empty text, which the
    legality pattern accepts, [fix_stack] raises [IndexError], not
    [CharacterError], and prints nothing. *)
Theorem first_character_access :
  (forall text : str,
      text <> [] -> legal text ->
      (exists down, first_down text = Ret down) /\
      forall fuel verbose w,
        fst (fix_stack fuel text verbose w) <> Raise IndexError) /\
  (LEGAL_STACK [] = true /\
   first_down [] = Raise IndexError /\
   forall fuel verbose w,
     fix_stack fuel [] verbose w = (Raise IndexError, w)).
Proof.
  split.
  - intros text Hne Hl.
    destruct (legal_parse text Hl) as (s & _ & <-).
    destruct s as [|o rest]; [exfalso; now apply Hne|].
    split; [simpl; eauto|].
    intros fuel verbose w. unfold fix_stack, fix_stack_run.
    pose proof (fix_stack_entry_show o rest verbose w) as He. cbv zeta in He.
    match type of He with
    | _ = ?r => assert (Hr : exists s c w1, r = (Ret (locals_of s c), w1))
    end.
    { destruct o; eauto. }
    destruct Hr as (s & c & w1 & Hr). rewrite Hr in He.
    unfold bind at 1. rewrite (bind_ret _ _ _ _ _ He).
    destruct (fix_stack_while_outcome fuel verbose s c w1) as [(st & w' & E) | (w' & E)];
      rewrite E; simpl; discriminate.
  - repeat split.
Qed.

Lemma first_character_access_witness :
  lit "-+" <> [] /\ legal (lit "-+") /\
  (exists down, first_down (lit "-+") = Ret down) /\
  fst (fix_stack 0 (lit "-+") true (World [] [])) <> Raise IndexError.
Proof.
  assert (N : lit "-+" <> []) by discriminate.
  assert (L : legal (lit "-+")) by legal_text.
  pose proof (proj1 first_character_access (lit "-+") N L) as H.
  exact (conj N (conj L (conj (proj1 H) (proj2 H 0 true (World [] []))))).
Defined.

End LoopTests.

(** ** Texts with illegal characters *)

Section Illegal.

Import Spec.

(** A text the legality pattern does not match is rejected before anything
    else happens. *)
Lemma fix_stack_rejects (text : str) :
  LEGAL_STACK text = false ->
  forall fuel verbose w,
    fix_stack fuel text verbose w
    = (Raise (CharacterError (lit "Not a legal stack: " ++ text)), w).
Proof.
  intros H fuel verbose w.
  unfold fix_stack, fix_stack_run, fix_stack_entry. now rewrite H.
Qed.

(** What the legality pattern matches: the texts over the two symbols, and
    these texts followed by one newline. *)
Lemma LEGAL_STACK_matches (text : str) :
  LEGAL_STACK text = true <->
  legal text \/ exists t, legal t /\ text = t ++ [LF].
Proof.
  split.
  - induction text as [|c text IH]; simpl; [left; constructor|].
    unfold legal_char.
    destruct (Ascii.eqb c "-") eqn:E1; [apply Ascii.eqb_eq in E1|
      destruct (Ascii.eqb c "+") eqn:E2; [apply Ascii.eqb_eq in E2|]]; simpl.
    + intros H. destruct (IH H) as [L | (t & L & ->)].
      * left. constructor; auto.
      * right. exists (c :: t). split; [constructor; auto | reflexivity].
    + intros H. destruct (IH H) as [L | (t & L & ->)].
      * left. constructor; auto.
      * right. exists (c :: t). split; [constructor; auto | reflexivity].
    + intros H. apply andb_prop in H as [H1 H2]. apply Ascii.eqb_eq in H1.
      destruct text; [|discriminate]. right. exists []. split; [constructor|].
      now subst c.
  - intros [L | (t & L & ->)]; [now apply LEGAL_STACK_legal|].
    induction L as [|c t Hc _ IH]; [reflexivity|].
    simpl. destruct Hc as [-> | ->]; exact IH.
Qed.

Lemma leading_run_newline (o : Orientation) (s : Stack) :
  leading_run (symbol o) (show s ++ [LF]) = repeat (symbol o) (run o s).
Proof.
  destruct o; induction s as [|x s IH]; simpl in *; try reflexivity;
    destruct x; simpl; try reflexivity; now rewrite IH.
Qed.

Lemma count_up_newline (s : Stack) :
  count_up_items (show s ++ [LF]) = Z.of_nat (run UP s).
Proof.
  unfold count_up_items, FIRST_UP_ITEMS. rewrite search_leading_run_len.
  change (len (leading_run (symbol UP) (show s ++ [LF])) = Z.of_nat (run UP s)).
  rewrite leading_run_newline. unfold len. now rewrite repeat_length.
Qed.

Lemma count_down_newline (s : Stack) :
  count_down_items (show s ++ [LF]) = Z.of_nat (run DOWN s).
Proof.
  unfold count_down_items, FIRST_DOWN_ITEMS. rewrite search_leading_run_len.
  change (len (leading_run (symbol DOWN) (show s ++ [LF])) = Z.of_nat (run DOWN s)).
  rewrite leading_run_newline. unfold len. now rewrite repeat_length.
Qed.

(** A flip within the sequence never reaches the newline behind it. *)
Lemma stack_flip_newline (k : nat) (s : Stack) :
  k <= length s ->
  stack_flip (Z.of_nat k) (show s ++ [LF]) = Ret (show (flip k s) ++ [LF]).
Proof.
  intros Hk. pose proof (stack_flip_show k s Hk) as H.
  unfold stack_flip, split_items, reverse_items in *.
  rewrite slice_bound_in in * by (rewrite ?length_app, length_show; lia).
  rewrite Nat2Z.id in *.
  rewrite firstn_app, skipn_app, length_show.
  replace (k - length s) with 0 by lia. cbn [firstn skipn]. rewrite app_nil_r.
  destruct (flip_chars (rev (firstn k (show s)))) as [part| |]; try discriminate.
  cbn [obind] in *. injection H as <-. now rewrite app_assoc.
Qed.

Lemma all_up_newline (s : Stack) :
  all_up (Z.of_nat (run UP s)) (show s ++ [LF]) = false.
Proof.
  unfold all_up, len. rewrite length_app, length_show. simpl.
  pose proof (run_le_length UP s). apply Z.eqb_neq. lia.
Qed.

(** The announcement and the flip, then the rest [K] of the run, when the
    items end with a newline. *)
Lemma announced_flip_newline (verbose : bool) (k : nat) (s : Stack) (w : world) :
  k <= length s ->
  exists w',
    forall (B : Type) (K : str -> IO B),
      ((if verbose then print_end (format_int (Z.of_nat k) ++ lit " ") []
        else ret tt) ;;;
       items <- flip_and_print (Z.of_nat k) (show s ++ [LF]) verbose ;;
       K items) w
      = K (show (flip k s) ++ [LF]) w'.
Proof.
  intros Hk. unfold flip_and_print, bind, lift.
  destruct verbose; cbn [print_end print ret];
    rewrite (stack_flip_newline k s Hk); cbn [print_end print ret];
    eexists; intros B K; reflexivity.
Qed.

Lemma fix_stack_body_newline (verbose : bool) (s : Stack) (count : Z) (w : world) :
  exists s' w',
    fix_stack_body verbose (locals_newline s count) w
    = (Ret (locals_newline s' (count + 1 + 1)), w').
Proof.
  unfold fix_stack_body. cbn [locals_newline up_count items flip_count].
  destruct (announced_flip_newline verbose (run UP s) s w (run_le_length UP s))
    as (w1 & E1).
  rewrite E1. clear E1. rewrite count_down_newline.
  set (s1 := flip (run UP s) s).
  destruct (announced_flip_newline verbose (run DOWN s1) s1 w1 (run_le_length DOWN s1))
    as (w2 & E2).
  rewrite E2. clear E2.
  exists (flip (run DOWN s1) s1), w2.
  unfold ret, locals_newline. now rewrite count_up_newline, all_up_newline.
Qed.

(** The loop never ends on items that end with a newline. *)
Lemma fix_stack_while_newline (fuel : nat) (verbose : bool) :
  forall (s : Stack) (count : Z) (w : world),
    exists w', fix_stack_while fuel verbose (locals_newline s count) w = (Diverge, w').
Proof.
  induction fuel as [|fuel IH]; intros s count w.
  - exists w. now apply fix_stack_while_out.
  - rewrite fix_stack_while_again by reflexivity.
    destruct (fix_stack_body_newline verbose s count w) as (s' & w1 & E).
    rewrite (bind_ret _ _ _ _ _ E). apply IH.
Qed.

(** [fix_stack] on a sequence followed by a newline passes the validation
    and then neither returns nor raises, whatever number of iterations it is
    allowed. *)
Lemma fix_stack_newline (s : Stack) :
  forall fuel verbose w,
    exists w', fix_stack fuel (show s ++ [LF]) verbose w = (Diverge, w').
Proof.
  intros fuel verbose w.
  assert (He : exists s1 c w1,
    fix_stack_entry (show s ++ [LF]) verbose w = (Ret (locals_newline s1 c), w1)).
  { unfold fix_stack_entry.
    rewrite (proj2 (LEGAL_STACK_matches (show s ++ [LF])))
      by (right; exists (show s); split; [apply legal_show | reflexivity]).
    cbn [negb]. unfold bind at 1. unfold lift.
    destruct s as [|o rest].
    - exists [], 0%Z, w. reflexivity.
    - destruct o.
      + exists (UP :: rest), 0%Z, w.
        change (first_down (show (UP :: rest) ++ [LF])) with (@Ret bool false).
        cbv iota beta. unfold bind at 1. unfold ret at 1.
        unfold ret, locals_newline. now rewrite count_up_newline, all_up_newline.
      + change (first_down (show (DOWN :: rest) ++ [LF])) with (@Ret bool true).
        cbv iota beta. unfold bind at 1. rewrite count_down_newline.
        destruct (announced_flip_newline verbose (run DOWN (DOWN :: rest)) (DOWN :: rest)
          w (run_le_length DOWN _)) as (w1 & E1).
        rewrite E1. clear E1. unfold ret at 1.
        eexists _, _, w1. unfold ret, locals_newline.
        now rewrite count_up_newline, all_up_newline. }
  destruct He as (s1 & c & w1 & He).
  destruct (fix_stack_while_newline fuel verbose s1 c w1) as (w' & Hw).
  exists w'. unfold fix_stack, fix_stack_run.
  unfold bind at 1. now rewrite (bind_ret _ _ _ _ _ He), Hw.
Qed.

(** C3, at the text of a '+' followed by a newline. The text has a character
    outside the two legal symbols, yet the legality pattern matches it, and
    [fix_stack] raises nothing on it: whatever number of iterations it is
    allowed, the loop has not ended. *)
Theorem fix_stack_newline_tail :
  ~ legal ["+"%char; LF] /\
  LEGAL_STACK ["+"%char; LF] = true /\
  forall fuel verbose w,
    fst (fix_stack fuel ["+"%char; LF] verbose w) = Diverge.
Proof.
  repeat split.
  - intros H. inversion H as [|c t _ H2]; subst.
    inversion H2 as [|c t [E | E] _]; discriminate.
  - intros fuel verbose w.
    destruct (fix_stack_newline [UP] fuel verbose w) as (w' & E).
    change (show [UP] ++ [LF]) with ["+"%char; LF] in E. now rewrite E.
Qed.

End Illegal.

(** ** Batch mode *)

Section Batch.

Lemma blind_ret {A : Type} (a : A) : stdin_blind (ret a).
Proof. intros w1 w2 H. split; [reflexivity | exact H]. Qed.

Lemma blind_raise {A : Type} (e : exn) : stdin_blind (@raise A e).
Proof. intros w1 w2 H. split; [reflexivity | exact H]. Qed.

Lemma blind_diverge {A : Type} : stdin_blind (@diverge A).
Proof. intros w1 w2 H. split; [reflexivity | exact H]. Qed.

Lemma blind_lift {A : Type} (c : outcome A) : stdin_blind (lift c).
Proof. intros w1 w2 H. split; [reflexivity | exact H]. Qed.

Lemma blind_print_end (text end_ : str) : stdin_blind (print_end text end_).
Proof. intros w1 w2 H. split; [reflexivity | simpl; now rewrite H]. Qed.

Lemma blind_bind {A B : Type} (c : IO A) (k : A -> IO B) :
  stdin_blind c -> (forall a, stdin_blind (k a)) -> stdin_blind (bind c k).
Proof.
  intros Hc Hk w1 w2 H. unfold bind.
  destruct (Hc w1 w2 H) as [E1 E2].
  destruct (c w1) as [[a| |] w1'], (c w2) as [[a'| |] w2']; simpl in *;
    try discriminate.
  - injection E1 as <-. now apply Hk.
  - injection E1 as <-. split; [reflexivity | assumption].
  - split; [reflexivity | assumption].
Qed.

Lemma blind_announce (verbose : bool) (text : str) :
  stdin_blind (if verbose then print_end text [] else ret tt).
Proof. destruct verbose; [apply blind_print_end | apply blind_ret]. Qed.

Lemma blind_flip_and_print (k : Z) (text : str) (verbose : bool) :
  stdin_blind (flip_and_print k text verbose).
Proof.
  unfold flip_and_print. apply blind_bind; [apply blind_lift|]. intros t.
  apply blind_bind; [|intros _; apply blind_ret].
  destruct verbose; [apply blind_print_end | apply blind_ret].
Qed.

Lemma blind_fix_stack_entry (text : str) (verbose : bool) :
  stdin_blind (fix_stack_entry text verbose).
Proof.
  unfold fix_stack_entry.
  destruct (negb (LEGAL_STACK text)); [apply blind_raise|].
  apply blind_bind; [apply blind_lift|]. intros down.
  apply blind_bind.
  - destruct down; [|apply blind_ret].
    apply blind_bind; [apply blind_announce|]. intros _.
    apply blind_bind; [apply blind_flip_and_print|]. intros t. apply blind_ret.
  - intros [t c]. apply blind_ret.
Qed.

Lemma blind_fix_stack_body (verbose : bool) (st : locals) :
  stdin_blind (fix_stack_body verbose st).
Proof.
  unfold fix_stack_body.
  apply blind_bind; [apply blind_announce|]. intros _.
  apply blind_bind; [apply blind_flip_and_print|]. intros t1.
  apply blind_bind; [apply blind_announce|]. intros _.
  apply blind_bind; [apply blind_flip_and_print|]. intros t2. apply blind_ret.
Qed.

Lemma blind_fix_stack_while (fuel : nat) (verbose : bool) :
  forall st, stdin_blind (fix_stack_while fuel verbose st).
Proof.
  induction fuel as [|fuel IH]; intros st; simpl;
    destruct (finished st); try apply blind_ret; [apply blind_diverge|].
  apply blind_bind; [apply blind_fix_stack_body | exact IH].
Qed.

Lemma blind_fix_stack (fuel : nat) (text : str) (verbose : bool) :
  stdin_blind (fix_stack fuel text verbose).
Proof.
  unfold fix_stack, fix_stack_run.
  apply blind_bind; [|intros st; apply blind_ret].
  apply blind_bind; [apply blind_fix_stack_entry | apply blind_fix_stack_while].
Qed.

(** The loop over the unread lines prints the same whether or not lines
    follow those the count announces. *)
Lemma for_stack_raw_beyond (fuel : nat) (count : Z) :
  forall (unread : list str) (case : Z) (w1 w2 : world),
    stdout w1 = stdout w2 ->
    stdout (snd (for_stack_raw fuel count case unread w1))
    = stdout (snd (for_stack_raw fuel count case
                     (firstn (Z.to_nat (count - case)) unread) w2)).
Proof.
  induction unread as [|stack_raw rest IH]; intros case w1 w2 H.
  - rewrite firstn_nil. exact H.
  - cbn [for_stack_raw]. unfold bind at 1.
    destruct (Z.gtb_spec (case + 1) count) as [G | G].
    + replace (Z.to_nat (count - case)) with 0 by lia. exact H.
    + replace (Z.to_nat (count - case)) with (S (Z.to_nat (count - (case + 1)))) by lia.
      cbn [firstn for_stack_raw]. unfold bind at 3.
      destruct (Z.gtb_spec (case + 1) count) as [G' | _]; [lia|].
      set (w1' := {| stdin := rest; stdout := stdout w1 |}).
      set (w2' := {| stdin := firstn _ rest; stdout := stdout w2 |}).
      destruct (blind_fix_stack fuel (strip stack_raw) false w1' w2' H) as [E1 E2].
      unfold bind at 1 3.
      destruct (fix_stack fuel (strip stack_raw) false w1') as [[n| |] v1],
               (fix_stack fuel (strip stack_raw) false w2') as [[n'| |] v2];
        simpl in E1, E2; try discriminate; try exact E2.
      injection E1 as <-.
      unfold bind, print, print_end. apply IH. cbn [stdout]. now rewrite E2.
Qed.

(** C5. On the input stream of the count 2 and the two sequences "--+--+"
    and "-+-+-+", batch mode prints exactly the two lines "Case #1: 3" and
    "Case #2: 5", the counts [fix_stack] returns on the two sequences, and
    ends normally; and on every stream whose first line reads as the count
    [N], it prints what it prints on the stream cut after the [N]-th
    sequence: no line behind it adds to the output. *)
Theorem batch_mode_output :
  (forall fuel,
      process_input_data_stream (5 + fuel) (World (stdin_lines batch_example) [])
      = (Ret tt, World [] (lit "Case #1: 3" ++ [LF] ++ lit "Case #2: 5" ++ [LF])) /\
      fst (fix_stack (5 + fuel) (lit "--+--+") false (World [] [])) = Ret 3%Z /\
      fst (fix_stack (5 + fuel) (lit "-+-+-+") false (World [] [])) = Ret 5%Z) /\
  (forall fuel (header : str) (rest : list str) (printed_before : str) (N : Z),
      py_int (strip header) = Ret N ->
      stdout (snd (process_input_data_stream fuel
                     (World (header :: rest) printed_before)))
      = stdout (snd (process_input_data_stream fuel
                       (World (header :: firstn (Z.to_nat N) rest) printed_before)))).
Proof.
  split.
  - intros fuel. repeat split; vm_compute; reflexivity.
  - intros fuel header rest out N HN.
    unfold process_input_data_stream, bind, readline, lift. cbn [stdin stdout].
    rewrite HN. cbv iota beta. cbn [stdin].
    rewrite (for_stack_raw_beyond fuel N rest 0
               (World rest out) (World (firstn (Z.to_nat N) rest) out) eq_refl).
    now rewrite Z.sub_0_r.
Qed.

Lemma batch_mode_output_witness :
  py_int (strip (lit "2" ++ [LF])) = Ret 2%Z /\
  stdout (snd (process_input_data_stream 5
                 (World (stdin_lines (batch_example ++ lit "++-" ++ [LF])) [])))
  = lit "Case #1: 3" ++ [LF] ++ lit "Case #2: 5" ++ [LF].
Proof.
  assert (P : py_int (strip (lit "2" ++ [LF])) = Ret 2%Z) by reflexivity.
  exact (conj P
    (proj2 batch_mode_output 5 (lit "2" ++ [LF])
       [lit "--+--+" ++ [LF]; lit "-+-+-+" ++ [LF]; lit "++-" ++ [LF]] [] 2%Z P)).
Defined.

End Batch.

(** ** Flips and run counts on arbitrary texts *)

Section AnyText.

Lemma flip_chars_ret_legal (text out : str) :
  flip_chars text = Ret out -> legal text.
Proof.
  revert out. induction text as [|c text IH]; intros out H; [constructor|].
  simpl in H. unfold flip_char in H.
  destruct (Ascii.eqb c "+") eqn:E1; [apply Ascii.eqb_eq in E1|
    destruct (Ascii.eqb c "-") eqn:E2; [apply Ascii.eqb_eq in E2|discriminate]];
    simpl in H; destruct (flip_chars text) as [ys| |]; try discriminate;
    (constructor; [auto | exact (IH ys eq_refl)]).
Qed.

Lemma flip_char_illegal (c : ascii) :
  c <> "+"%char -> c <> "-"%char -> flip_char c = Raise (CharacterError [c]).
Proof.
  intros H1 H2. unfold flip_char.
  destruct (Ascii.eqb_spec c "+"); [contradiction|].
  destruct (Ascii.eqb_spec c "-"); [contradiction|]. reflexivity.
Qed.

Lemma flip_chars_first_illegal (x y : str) (c : ascii) :
  legal x -> c <> "+"%char -> c <> "-"%char ->
  flip_chars (x ++ c :: y) = Raise (CharacterError [c]).
Proof.
  intros Hx H1 H2. induction Hx as [|d x Hd _ IH]; simpl.
  - now rewrite flip_char_illegal.
  - rewrite IH. destruct Hd as [-> | ->]; reflexivity.
Qed.

Lemma split_items_whole (k : Z) (text : str) :
  fst (split_items k text) ++ snd (split_items k text) = text.
Proof. unfold split_items. simpl. apply firstn_skipn. Qed.

Lemma slice_bound_le (k : Z) (n : nat) : slice_bound k n <= n.
Proof. unfold slice_bound. destruct (Z.ltb_spec k 0); lia. Qed.

Lemma slice_bound_idem (k : Z) (n : nat) :
  slice_bound (Z.of_nat (slice_bound k n)) n = slice_bound k n.
Proof.
  pose proof (slice_bound_le k n).
  rewrite slice_bound_in by lia. apply Nat2Z.id.
Qed.

(** A flip at any index is the flip at the index within the text that the
    slices of [split_items] stop at. *)
Lemma stack_flip_clamped (k : Z) (text : str) :
  stack_flip k text = stack_flip (Z.of_nat (slice_bound k (length text))) text.
Proof.
  unfold stack_flip, split_items. now rewrite slice_bound_idem.
Qed.

(** X1. [stack_flip] looks at the items before the cut only: the two parts
    of [split_items] make up the text; when the first part is over '+' and
    '-', the flip returns that part reversed and inverted followed by the
    second part as it is, whatever characters the second part holds; and a
    flip that returns had a first part over '+' and '-'. *)
Theorem stack_flip_prefix_only (k : Z) (text : str) :
  let part1 := fst (split_items k text) in
  let part2 := snd (split_items k text) in
  part1 ++ part2 = text /\
  (legal part1 -> stack_flip k text = Ret (map inverted (rev part1) ++ part2)) /\
  (forall out, stack_flip k text = Ret out -> legal part1).
Proof.
  cbv zeta. split; [apply split_items_whole|]. split.
  - intros Hl. unfold stack_flip, reverse_items.
    destruct (split_items k text) as [part1 part2]. simpl in *.
    rewrite flip_chars_legal by now apply legal_rev.
    simpl. now rewrite map_rev.
  - intros out H. unfold stack_flip, reverse_items in H.
    destruct (split_items k text) as [part1 part2]. simpl.
    destruct (flip_chars (rev part1)) as [f| |] eqn:E; try discriminate.
    apply flip_chars_ret_legal, legal_rev in E. now rewrite rev_involutive in E.
Qed.

Lemma stack_flip_prefix_only_witness :
  legal (fst (split_items 2 (lit "--x++"))) /\
  stack_flip 2 (lit "--x++") = Ret (lit "++x++").
Proof.
  assert (L : legal (fst (split_items 2 (lit "--x++")))) by legal_text.
  exact (conj L (proj1 (proj2 (stack_flip_prefix_only 2 (lit "--x++"))) L)).
Defined.

(** X2. When the items before the cut hold a character that is neither '+'
    nor '-', [stack_flip] raises [CharacterError] with the last such
    character before the cut: the part is reversed before it is flipped
    item by item. *)
Theorem stack_flip_reports_last_illegal (k : Z) (text a b : str) (c : ascii) :
  fst (split_items k text) = a ++ c :: b ->
  legal b -> c <> "+"%char -> c <> "-"%char ->
  stack_flip k text = Raise (CharacterError [c]).
Proof.
  intros Hp Hb H1 H2. unfold stack_flip, reverse_items.
  destruct (split_items k text) as [part1 part2]. simpl in Hp. subst part1.
  rewrite rev_app_distr. simpl. rewrite <- app_assoc. simpl.
  rewrite flip_chars_first_illegal; auto. now apply legal_rev.
Qed.

Lemma stack_flip_reports_last_illegal_witness :
  fst (split_items 4 (lit "-x-y-+")) = lit "-x-" ++ "y"%char :: lit "" /\
  legal (lit "") /\ "y"%char <> "+"%char /\ "y"%char <> "-"%char /\
  stack_flip 4 (lit "-x-y-+") = Raise (CharacterError ["y"%char]).
Proof.
  assert (P : fst (split_items 4 (lit "-x-y-+")) = lit "-x-" ++ "y"%char :: lit "")
    by reflexivity.
  assert (L : legal (lit "")) by legal_text.
  assert (N1 : "y"%char <> "+"%char) by discriminate.
  assert (N2 : "y"%char <> "-"%char) by discriminate.
  exact (conj P (conj L (conj N1 (conj N2
    (stack_flip_reports_last_illegal 4 _ _ _ _ P L N1 N2))))).
Defined.

(** X3. Whatever the index and the text, a flip that returns gives a text
    of the same length. *)
Theorem stack_flip_keeps_length (k : Z) (text out : str) :
  stack_flip k text = Ret out -> length out = length text.
Proof. apply stack_flip_length. Qed.

Lemma stack_flip_keeps_length_witness :
  stack_flip (-1) (lit "--+y") = Ret (lit "-++y") /\
  length (lit "-++y") = length (lit "--+y").
Proof.
  assert (E : stack_flip (-1) (lit "--+y") = Ret (lit "-++y")) by reflexivity.
  exact (conj E (stack_flip_keeps_length (-1) _ _ E)).
Defined.

(** X4. An index outside the text raises nothing of its own: an index at or
    beyond the length flips the whole text, a negative index [k] flips all
    but the last [-k] items (nothing when the text has no more than [-k]),
    and the index 0 returns the text as it is, whatever it holds. *)
Theorem stack_flip_index_outside (k : Z) (text : str) :
  ((len text <= k)%Z -> stack_flip k text = stack_flip (len text) text) /\
  ((k < 0)%Z -> stack_flip k text = stack_flip (Z.max 0 (len text + k)) text) /\
  stack_flip 0 text = Ret text.
Proof.
  unfold len. split; [|split; [|reflexivity]].
  - intros H.
    assert (E : slice_bound k (length text)
                = slice_bound (Z.of_nat (length text)) (length text)).
    { unfold slice_bound.
      destruct (Z.ltb_spec k 0), (Z.ltb_spec (Z.of_nat (length text)) 0); lia. }
    now rewrite (stack_flip_clamped k), E, <- stack_flip_clamped.
  - intros H.
    assert (E : slice_bound k (length text)
                = slice_bound (Z.max 0 (Z.of_nat (length text) + k)) (length text)).
    { unfold slice_bound.
      destruct (Z.ltb_spec k 0),
        (Z.ltb_spec (Z.max 0 (Z.of_nat (length text) + k)) 0); lia. }
    now rewrite (stack_flip_clamped k), E, <- stack_flip_clamped.
Qed.

Lemma stack_flip_index_outside_witness :
  (len (lit "-+") <= 7)%Z /\ (-1 < 0)%Z /\
  stack_flip 7 (lit "-+") = stack_flip (len (lit "-+")) (lit "-+") /\
  stack_flip (-1) (lit "-+")
  = stack_flip (Z.max 0 (len (lit "-+") + -1)) (lit "-+").
Proof.
  assert (A : (len (lit "-+") <= 7)%Z) by (vm_compute; discriminate).
  assert (B : (-1 < 0)%Z) by reflexivity.
  exact (conj A (conj B (conj
    (proj1 (stack_flip_index_outside 7 (lit "-+")) A)
    (proj1 (proj2 (stack_flip_index_outside (-1) (lit "-+"))) B)))).
Defined.

Lemma leading_run_repeat (c : ascii) (text : str) :
  leading_run c text = repeat c (length (leading_run c text)).
Proof.
  induction text as [|x text IH]; simpl; [reflexivity|].
  destruct (Ascii.eqb_spec x c); simpl; [|reflexivity]. subst x. now rewrite <- IH.
Qed.

Lemma leading_run_prefix (c : ascii) (text : str) :
  firstn (length (leading_run c text)) text = leading_run c text.
Proof.
  induction text as [|x text IH]; simpl; [reflexivity|].
  destruct (Ascii.eqb x c); simpl; [now rewrite IH | reflexivity].
Qed.

Lemma leading_run_maximal (c : ascii) (text : str) :
  nth_error text (length (leading_run c text)) <> Some c.
Proof.
  induction text as [|x text IH]; simpl; [discriminate|].
  destruct (Ascii.eqb_spec x c); simpl; [exact IH | congruence].
Qed.

Lemma leading_run_length (c : ascii) (text : str) :
  length (leading_run c text) <= length text.
Proof.
  induction text as [|x text IH]; simpl; [lia|].
  destruct (Ascii.eqb x c); simpl; lia.
Qed.

Lemma count_is_run (c : ascii) (text : str) :
  let n := length (leading_run c text) in
  n <= length text /\ firstn n text = repeat c n /\ nth_error text n <> Some c.
Proof.
  cbv zeta. split; [apply leading_run_length|]. split.
  - rewrite leading_run_prefix. apply leading_run_repeat.
  - apply leading_run_maximal.
Qed.

(** X5. [count_up_items] and [count_down_items] return, on every text, the
    length of the maximal leading run of '+' (of '-'): a number between 0
    and the length of the text such that the items before it are all '+'
    (all '-') and the item at it, if there is one, is not. *)
Theorem counts_are_leading_runs (text : str) :
  (let u := Z.to_nat (count_up_items text) in
   count_up_items text = Z.of_nat u /\ u <= length text /\
   firstn u text = repeat "+"%char u /\ nth_error text u <> Some "+"%char) /\
  (let d := Z.to_nat (count_down_items text) in
   count_down_items text = Z.of_nat d /\ d <= length text /\
   firstn d text = repeat "-"%char d /\ nth_error text d <> Some "-"%char).
Proof.
  unfold count_up_items, count_down_items, FIRST_UP_ITEMS, FIRST_DOWN_ITEMS.
  rewrite !search_leading_run_len. unfold len. cbv zeta. rewrite !Nat2Z.id.
  split; (split; [reflexivity | apply count_is_run]).
Qed.

(** X6. On a non-empty text, [first_down] holds exactly when
    [count_down_items] is positive, and then [count_up_items] is 0; of the
    two counts at most one is not 0 on any text. *)
Theorem first_down_and_counts (text : str) :
  (forall down, first_down text = Ret down ->
     (down = true <-> (0 < count_down_items text)%Z) /\
     (down = true -> count_up_items text = 0%Z)) /\
  (count_up_items text = 0%Z \/ count_down_items text = 0%Z).
Proof.
  unfold count_up_items, count_down_items, FIRST_UP_ITEMS, FIRST_DOWN_ITEMS.
  rewrite !search_leading_run_len. unfold len.
  destruct text as [|c text]; simpl.
  - split; [discriminate | now left].
  - destruct (Ascii.eqb_spec c "-") as [-> | N].
    + simpl. split; [|now left].
      intros down H. injection H as <-. split; [split; [lia | reflexivity] | reflexivity].
    + split; [|now right].
      intros down H. injection H as <-. simpl.
      split; [split; [discriminate | lia] | discriminate].
Qed.

Lemma first_down_and_counts_witness :
  first_down (lit "--+") = Ret true /\
  (0 < count_down_items (lit "--+"))%Z /\ count_up_items (lit "--+") = 0%Z.
Proof.
  assert (E : first_down (lit "--+") = Ret true) by reflexivity.
  pose proof (proj1 (first_down_and_counts (lit "--+")) true E) as H.
  exact (conj E (conj (proj1 (proj1 H) eq_refl) (proj2 H eq_refl))).
Defined.

(** X7. [all_up], given the count of [count_up_items], holds exactly when
    every item of the text is '+'; on the empty text it holds. *)
Theorem all_up_exact (text : str) :
  all_up (count_up_items text) text = true <-> Forall (fun c => c = "+"%char) text.
Proof.
  unfold all_up, count_up_items, FIRST_UP_ITEMS.
  rewrite search_leading_run_len. unfold len. rewrite Z.eqb_eq. split.
  - intros H. apply leading_run_whole. lia.
  - intros H. f_equal. induction H as [|c text -> _ IH]; simpl; [reflexivity|].
    now rewrite <- IH.
Qed.

End AnyText.

(** ** The count that [fix_stack] returns *)

Section Count.

Import Spec.

Lemma same_sym (a b : Orientation) : same a b = same b a.
Proof. destruct a, b; reflexivity. Qed.

Lemma last_cons2 (x y : Orientation) (r : Stack) (d : Orientation) :
  last (x :: y :: r) d = last (y :: r) d.
Proof. reflexivity. Qed.

Lemma last_app_cons (a : Stack) (y : Orientation) (b : Stack) (d : Orientation) :
  last (a ++ y :: b) d = last (y :: b) d.
Proof.
  induction a as [|x a IH]; [reflexivity|].
  rewrite <- IH. simpl. destruct (a ++ y :: b) eqn:E; [|reflexivity].
  destruct a; discriminate.
Qed.

Lemma needed_same (o : Orientation) (t : Stack) :
  needed (o :: o :: t) = needed (o :: t).
Proof.
  unfold needed, last_down. rewrite last_cons2.
  cbn [changes]. now rewrite same_refl.
Qed.

Lemma needed_other (o : Orientation) (t : Stack) :
  needed (o :: invert o :: t) = S (needed (invert o :: t)).
Proof.
  unfold needed, last_down. rewrite last_cons2.
  cbn [changes]. rewrite same_sym, same_invert_l. reflexivity.
Qed.

Lemma needed_repeat_app (o : Orientation) (n : nat) (t : Stack) :
  needed (repeat o (S n) ++ t) = needed (o :: t).
Proof.
  induction n as [|n IH]; [reflexivity|].
  change (repeat o (S (S n)) ++ t) with (o :: o :: (repeat o n ++ t)).
  rewrite needed_same. exact IH.
Qed.

(** A sequence is its leading run followed by nothing or by an element of
    the other orientation. *)
Lemma run_then (o : Orientation) (s : Stack) :
  s = repeat o (run o s) ++ skipn (run o s) s /\
  (skipn (run o s) s = [] \/ exists t, skipn (run o s) s = invert o :: t).
Proof.
  split.
  - rewrite <- firstn_run. symmetry. apply firstn_skipn.
  - destruct (Nat.eq_dec (run o s) (length s)) as [E | N].
    + left. rewrite E. apply skipn_all.
    + right. now apply skipn_run.
Qed.

(** What a leading run of [o] adds to the count of the rest [t], when [t]
    is empty or begins with the other orientation. *)
Lemma needed_block (o : Orientation) (n : nat) (t : Stack) :
  t = [] \/ (exists t', t = invert o :: t') ->
  needed (repeat o (S n) ++ t)
  = match t with
    | [] => match o with DOWN => 1 | UP => 0 end
    | _ => S (needed t)
    end.
Proof.
  intros [-> | (t' & ->)]; rewrite needed_repeat_app.
  - destruct o; reflexivity.
  - apply needed_other.
Qed.

(** The same run brought up: it adds nothing. *)
Lemma needed_block_up (n : nat) (t : Stack) :
  t = [] \/ (exists t', t = UP :: t') ->
  needed (repeat UP (S n) ++ t) = needed t.
Proof.
  intros [-> | (t' & ->)]; rewrite needed_repeat_app.
  - reflexivity.
  - apply needed_same.
Qed.

(** One round of the loop takes two off the count. *)
Lemma needed_round (s : Stack) :
  1 <= run UP s -> run UP s <> length s ->
  let s2 := flip (run DOWN (flip (run UP s) s)) (flip (run UP s) s) in
  needed s = 2 + needed s2 /\ 1 <= run UP s2.
Proof.
  intros Hu N. cbv zeta.
  destruct (round_shape s N) as (rest & Hrest & _ & _ & F2). rewrite F2.
  destruct (run_then UP s) as [Es _]. rewrite Hrest in Es.
  destruct (run_then DOWN rest) as [Er T]. simpl invert in T.
  set (tl := skipn (run DOWN rest) rest) in *.
  split; [|rewrite run_repeat_app; lia].
  assert (G : forall u, 1 <= u -> s = repeat UP u ++ DOWN :: rest ->
              needed s = 2 + needed (repeat UP (u + S (run DOWN rest)) ++ tl)).
  { intros u Hu' ->. destruct u as [|u]; [lia|].
    rewrite (needed_block UP u (DOWN :: rest)) by (right; now exists rest).
    rewrite Er at 1.
    change (DOWN :: repeat DOWN (run DOWN rest) ++ tl)
      with (repeat DOWN (S (run DOWN rest)) ++ tl).
    rewrite (needed_block DOWN (run DOWN rest) tl) by exact T.
    replace (S u + S (run DOWN rest)) with (S (u + S (run DOWN rest))) by lia.
    rewrite needed_block_up by exact T.
    destruct T as [-> | (t' & ->)]; reflexivity. }
  now apply G.
Qed.

Lemma needed_all_up (s : Stack) : run UP s = length s -> needed s = 0.
Proof.
  intros H. rewrite (run_all UP s H).
  destruct (length s) as [|n]; [reflexivity|].
  rewrite <- (app_nil_r (repeat UP (S n))). now rewrite needed_block_up by now left.
Qed.

Lemma main_loop_count (s : Stack) (count : Z) (steps : list step) (result : Z) :
  main_loop s count steps result ->
  1 <= run UP s ->
  (result = count + Z.of_nat (needed s))%Z.
Proof.
  induction 1 as [s count E | s count s1 s2 steps result N E1 E2 _ IH]; intros Hu.
  - rewrite needed_all_up by exact E. lia.
  - subst s1 s2. destruct (needed_round s Hu N) as [En Hu2].
    rewrite (IH Hu2), En. lia.
Qed.

(** The specification's reducer returns the count of differing neighbours,
    and one more when the last element is down. *)
Lemma reduce_count (s : Stack) (steps : list step) (result : Z) :
  reduce s steps result -> result = Z.of_nat (needed s).
Proof.
  intros H. destruct H as [rest s1 steps result E H | rest steps result H].
  - set (s := DOWN :: rest) in *.
    destruct (run_then DOWN s) as [Es T]. simpl invert in T.
    rewrite flip_run in E. simpl invert in E.
    assert (R : run DOWN s = S (run DOWN rest)) by reflexivity.
    rewrite R in *.
    assert (U1 : 1 <= run UP s1).
    { subst s1. rewrite run_repeat_app. lia. }
    rewrite (main_loop_count _ _ _ _ H U1).
    set (tl := skipn (S (run DOWN rest)) s) in *. clearbody tl. subst s.
    rewrite Es, E, (needed_block DOWN) by exact T.
    rewrite needed_block_up by exact T.
    destruct T as [-> | (t' & ->)]; [reflexivity | cbv iota; lia].
  - rewrite (main_loop_count _ _ _ _ H) by (simpl; lia). lia.
Qed.

Lemma boundaries_show (s : Stack) : boundaries (show s) = changes s.
Proof.
  induction s as [|x s IH]; [reflexivity|].
  destruct s as [|y s]; [reflexivity|].
  change (boundaries (show (x :: y :: s)))
    with ((if Ascii.eqb (symbol x) (symbol y) then 0 else 1) + boundaries (show (y :: s))).
  rewrite IH. cbn [changes]. destruct x, y; reflexivity.
Qed.

Lemma last_show (s : Stack) : last (show s) "+"%char = symbol (last s UP).
Proof.
  induction s as [|x s IH]; [reflexivity|].
  destruct s as [|y s]; [reflexivity|]. exact IH.
Qed.

Lemma flips_needed_show (s : Stack) : flips_needed (show s) = Z.of_nat (needed s).
Proof.
  unfold flips_needed, needed, last_down.
  rewrite boundaries_show, last_show. destruct (last s UP); simpl; lia.
Qed.

(** The count of [fix_stack] on a legal, non-empty text. *)
Lemma fix_stack_count (text : str) :
  text <> [] -> legal text ->
  exists s steps,
    parse text = Some s /\ reduce s steps (flips_needed text) /\
    forall fuel verbose w,
      length text - 1 <= fuel ->
      fix_stack fuel text verbose w
      = (Ret (flips_needed text), printed w (shown verbose (trace steps))).
Proof.
  intros Hne Hl.
  destruct (fix_stack_run_legal text Hne Hl)
    as (s & steps & result & s' & Hparse & Hred & _ & _ & _ & Hrun).
  pose proof (reduce_count s steps result Hred) as Hc.
  rewrite <- flips_needed_show, (parse_sound text s Hparse) in Hc. subst result.
  exists s, steps. repeat split; try assumption.
  intros fuel verbose w Hfuel. unfold fix_stack.
  now rewrite (bind_ret _ _ _ _ _ (Hrun fuel verbose w Hfuel)).
Qed.

(** X8. On every non-empty text over '+' and '-', [fix_stack] returns the
    number of places where two neighbouring items differ, plus one when the
    last item is '-'. *)
Theorem fix_stack_counts_boundaries (text : str) :
  text <> [] -> legal text ->
  forall fuel verbose w,
    length text - 1 <= fuel ->
    fst (fix_stack fuel text verbose w) = Ret (flips_needed text).
Proof.
  intros Hne Hl fuel verbose w Hfuel.
  destruct (fix_stack_count text Hne Hl) as (s & steps & _ & _ & Hrun).
  now rewrite Hrun.
Qed.

Lemma fix_stack_counts_boundaries_witness :
  lit "+--+-" <> [] /\ legal (lit "+--+-") /\
  length (lit "+--+-") - 1 <= 4 /\
  fst (fix_stack 4 (lit "+--+-") true (World [] [])) = Ret 4%Z.
Proof.
  assert (N : lit "+--+-" <> []) by discriminate.
  assert (L : legal (lit "+--+-")) by legal_text.
  assert (F : length (lit "+--+-") - 1 <= 4) by (simpl; lia).
  exact (conj N (conj L (conj F
    (fix_stack_counts_boundaries (lit "+--+-") N L 4 true (World [] []) F)))).
Defined.

End Count.

(** ** No sequence of flips does better *)

Section Minimal.

Import Spec.

Lemma changes_app (a b : Stack) :
  changes (a ++ b) = changes a + changes b + junction a b.
Proof.
  induction a as [|x a IH]; [simpl; lia|].
  destruct a as [|x' a].
  - destruct b as [|y b]; [reflexivity|]. simpl. lia.
  - change (changes ((x :: x' :: a) ++ b))
      with ((if same x x' then 0 else 1) + changes ((x' :: a) ++ b)).
    rewrite IH. cbn [changes].
    assert (J : junction (x :: x' :: a) b = junction (x' :: a) b).
    { destruct b; [reflexivity|]. unfold junction. now rewrite last_cons2. }
    lia.
Qed.

Lemma last_rev_cons (y : Orientation) (l : Stack) (d : Orientation) :
  last (rev (y :: l)) d = y.
Proof. simpl. apply last_last. Qed.

Lemma changes_rev (l : Stack) : changes (rev l) = changes l.
Proof.
  induction l as [|x l IH]; [reflexivity|].
  simpl rev. rewrite changes_app, IH.
  destruct l as [|y l]; [reflexivity|].
  cbn [changes]. unfold junction.
  destruct (rev (y :: l)) as [|z r] eqn:E.
  - apply (f_equal (@length _)) in E. rewrite length_rev in E. discriminate.
  - rewrite <- E, last_rev_cons, (same_sym y x). lia.
Qed.

Lemma changes_invert (l : Stack) : changes (map invert l) = changes l.
Proof.
  induction l as [|x l IH]; [reflexivity|].
  destruct l as [|y l]; [reflexivity|].
  change (changes (map invert (x :: y :: l)))
    with ((if same (invert x) (invert y) then 0 else 1) + changes (map invert (y :: l))).
  rewrite IH. cbn [changes]. destruct x, y; reflexivity.
Qed.

Lemma junction_le (a b : Stack) : junction a b <= 1.
Proof.
  unfold junction. destruct a; [lia|]. destruct b; [lia|].
  destruct (same _ _); lia.
Qed.

Lemma junction_nil_r (a : Stack) : junction a [] = 0.
Proof. destruct a; reflexivity. Qed.

Lemma last_down_le (s : Stack) : last_down s <= 1.
Proof. unfold last_down. destruct (last s UP); lia. Qed.

Lemma last_down_app (a : Stack) (y : Orientation) (b : Stack) :
  last_down (a ++ y :: b) = last_down (y :: b).
Proof. unfold last_down. now rewrite last_app_cons. Qed.

(** A flip, at whatever prefix length, takes at most one off the count. *)
Lemma needed_flip (k : nat) (s : Stack) : needed s <= S (needed (flip k s)).
Proof.
  unfold flip. rewrite <- (firstn_skipn k s) at 1.
  set (a := firstn k s). set (b := skipn k s). unfold needed.
  rewrite !changes_app, changes_invert, changes_rev.
  pose proof (junction_le a b). pose proof (junction_le (map invert (rev a)) b).
  destruct b as [|y b].
  - rewrite !app_nil_r, !junction_nil_r.
    pose proof (last_down_le a). simpl changes. lia.
  - rewrite !last_down_app. lia.
Qed.

(** A flip of a legal text at any index, on the sequence it denotes. *)
Lemma stack_flip_show_any (k : Z) (s : Stack) :
  stack_flip k (show s) = Ret (show (flip (slice_bound k (length s)) s)).
Proof.
  rewrite stack_flip_clamped, length_show.
  apply stack_flip_show, slice_bound_le.
Qed.

Lemma apply_flips_show (indexes : list Z) :
  forall (s : Stack) (out : str),
    apply_flips indexes (show s) = Ret out ->
    exists s', out = show s' /\ needed s <= length indexes + needed s'.
Proof.
  induction indexes as [|k indexes IH]; intros s out H; simpl in H.
  - injection H as <-. exists s. split; [reflexivity | simpl; lia].
  - rewrite stack_flip_show_any in H. simpl in H.
    destruct (IH _ _ H) as (s' & -> & Hn).
    exists s'. split; [reflexivity|].
    pose proof (needed_flip (slice_bound k (length s)) s). simpl. lia.
Qed.

Lemma all_plus_needed (s : Stack) :
  Forall (fun c => c = "+"%char) (show s) -> needed s = 0.
Proof.
  intros H. apply needed_all_up.
  induction s as [|x s IH]; [reflexivity|].
  inversion H as [|c t Hc Ht]; subst. destruct x; [|discriminate].
  simpl. now rewrite IH.
Qed.

(** The flips the specification's loop makes, applied one after the other,
    lead to the sequence it ends with, and there are as many of them as the
    count grows. *)
Lemma main_loop_flips (s : Stack) (count : Z) (steps : list step) (result : Z) :
  main_loop s count steps result ->
  exists s',
    apply_flips (map (fun st => Z.of_nat (fst st)) steps) (show s) = Ret (show s') /\
    run UP s' = length s' /\ length s' = length s /\
    (result = count + Z.of_nat (length steps))%Z.
Proof.
  induction 1 as [s count E | s count s1 s2 steps result N E1 E2 _ (s' & Ha & Hu & Hl & Hr)].
  - exists s. repeat split; try assumption. simpl. lia.
  - exists s'. subst s1 s2. cbn [map apply_flips fst].
    rewrite stack_flip_show by apply run_le_length. cbn [obind].
    rewrite stack_flip_show by apply run_le_length. cbn [obind].
    repeat split; try assumption.
    + now rewrite Hl, !length_flip.
    + simpl length. lia.
Qed.

Lemma reduce_flips (s : Stack) (steps : list step) (result : Z) :
  reduce s steps result ->
  apply_flips (map (fun st => Z.of_nat (fst st)) steps) (show s)
  = Ret (repeat "+"%char (length s)) /\
  result = Z.of_nat (length steps).
Proof.
  intros H. destruct H as [rest s1 steps result E H | rest steps result H];
    destruct (main_loop_flips _ _ _ _ H) as (s' & Ha & Hu & Hl & Hr).
  - cbn [map apply_flips fst].
    rewrite stack_flip_show by apply run_le_length. cbn [obind].
    rewrite <- E, Ha. split; [|simpl length; lia].
    rewrite (run_all UP s' Hu), show_repeat, Hl, E, length_flip. reflexivity.
  - rewrite Ha. split; [|lia].
    now rewrite (run_all UP s' Hu), show_repeat, Hl.
Qed.

(** X9. The count of [fix_stack] is the least number of flips that bring a
    non-empty text over '+' and '-' to all '+': some sequence of that many
    flips, applied one after the other with [stack_flip], gives the text of
    as many '+', and every sequence of flips that gives a text of '+' only
    has at least that many flips. *)
Theorem fix_stack_count_minimal (text : str) :
  text <> [] -> legal text ->
  forall fuel verbose w,
    length text - 1 <= fuel ->
    exists n,
      fst (fix_stack fuel text verbose w) = Ret n /\
      (exists indexes,
          Z.of_nat (length indexes) = n /\
          apply_flips indexes text = Ret (repeat "+"%char (length text))) /\
      (forall indexes out,
          apply_flips indexes text = Ret out ->
          Forall (fun c => c = "+"%char) out ->
          (n <= Z.of_nat (length indexes))%Z).
Proof.
  intros Hne Hl fuel verbose w Hfuel.
  destruct (fix_stack_count text Hne Hl) as (s & steps & Hparse & Hred & Hrun).
  pose proof (parse_sound text s Hparse) as Hs.
  exists (flips_needed text). rewrite Hrun by exact Hfuel. split; [reflexivity|]. split.
  - destruct (reduce_flips s steps _ Hred) as [Ha Hn].
    exists (map (fun st => Z.of_nat (fst st)) steps).
    rewrite length_map, <- Hs, length_show. split; [now rewrite Hs | exact Ha].
  - intros indexes out Ha Hall. rewrite <- Hs in Ha |- *.
    destruct (apply_flips_show indexes s out Ha) as (s' & -> & Hn).
    rewrite (all_plus_needed s' Hall) in Hn.
    rewrite flips_needed_show. lia.
Qed.

Lemma fix_stack_count_minimal_witness :
  lit "-+-" <> [] /\ legal (lit "-+-") /\ length (lit "-+-") - 1 <= 2 /\
  exists n,
    fst (fix_stack 2 (lit "-+-") false (World [] [])) = Ret n /\
    (exists indexes,
        Z.of_nat (length indexes) = n /\
        apply_flips indexes (lit "-+-") = Ret (repeat "+"%char (length (lit "-+-")))) /\
    (forall indexes out,
        apply_flips indexes (lit "-+-") = Ret out ->
        Forall (fun c => c = "+"%char) out ->
        (n <= Z.of_nat (length indexes))%Z).
Proof.
  assert (N : lit "-+-" <> []) by discriminate.
  assert (L : legal (lit "-+-")) by legal_text.
  assert (F : length (lit "-+-") - 1 <= 2) by (simpl; lia).
  exact (conj N (conj L (conj F
    (fix_stack_count_minimal (lit "-+-") N L 2 false (World [] []) F)))).
Defined.

End Minimal.

(** ** Every outcome of [fix_stack] *)

Section Outcomes.

Import Spec.

Lemma locals_of_coherent (st : locals) (s : Stack) :
  items st = show s -> coherent st -> st = locals_of s (flip_count st).
Proof.
  destruct st as [i c u f]. unfold coherent, locals_of. simpl.
  intros -> [-> ->]. reflexivity.
Qed.

(** X10. A run of the loop's body on items over '+' and '-' that are not
    all up returns, keeps the items legal and as many, counts two flips,
    and leaves a strictly longer leading run of '+': the loop's variant. *)
Theorem fix_stack_body_progress (st : locals) (verbose : bool) (w : world) :
  legal (items st) -> coherent st -> finished st = false ->
  exists st' w',
    fix_stack_body verbose st w = (Ret st', w') /\
    legal (items st') /\ length (items st') = length (items st) /\
    coherent st' /\
    (up_count st < up_count st')%Z /\
    flip_count st' = (flip_count st + 2)%Z.
Proof.
  intros Hl Hc Hf.
  destruct (legal_parse _ Hl) as (s & _ & Hs). symmetry in Hs.
  rewrite (locals_of_coherent st s Hs Hc) in *.
  rewrite finished_locals_of in Hf. apply Nat.eqb_neq in Hf.
  rewrite fix_stack_body_round.
  set (s2 := flip (run DOWN (flip (run UP s) s)) (flip (run UP s) s)).
  exists (locals_of s2 (flip_count st + 1 + 1)), (printed w (shown verbose
    (trace [(run UP s, flip (run UP s) s); (run DOWN (flip (run UP s) s), s2)]))).
  assert (P : run UP s < run UP s2) by (apply round_progress; lia).
  cbn [locals_of items up_count flip_count]. repeat split.
  - apply legal_show.
  - unfold s2. now rewrite !length_show, !length_flip.
  - rewrite !count_up_show. lia.
  - lia.
Qed.

Lemma fix_stack_body_progress_witness :
  legal (items (Locals (lit "+-+") 0 1 false)) /\
  coherent (Locals (lit "+-+") 0 1 false) /\
  exists st' w',
    fix_stack_body false (Locals (lit "+-+") 0 1 false) (World [] []) = (Ret st', w') /\
    legal (items st') /\ length (items st') = length (lit "+-+") /\
    coherent st' /\ (1 < up_count st')%Z /\ flip_count st' = (0 + 2)%Z.
Proof.
  assert (L : legal (items (Locals (lit "+-+") 0 1 false))) by legal_text.
  assert (C : coherent (Locals (lit "+-+") 0 1 false)) by (split; reflexivity).
  exact (conj L (conj C
    (fix_stack_body_progress (Locals (lit "+-+") 0 1 false) false (World [] [])
       L C eq_refl))).
Defined.

Lemma fix_stack_while_more_fuel (fuel : nat) (verbose : bool) :
  forall st w st' w',
    fix_stack_while fuel verbose st w = (Ret st', w') ->
    forall fuel', fuel <= fuel' ->
      fix_stack_while fuel' verbose st w = (Ret st', w').
Proof.
  induction fuel as [|fuel IH]; intros st w st' w' H fuel' Hle.
  - destruct (finished st) eqn:F.
    + rewrite fix_stack_while_finished in * by exact F. exact H.
    + rewrite fix_stack_while_out in H by exact F. discriminate.
  - destruct (finished st) eqn:F.
    + rewrite fix_stack_while_finished in * by exact F. exact H.
    + destruct fuel' as [|fuel']; [lia|].
      rewrite fix_stack_while_again in * by exact F.
      unfold bind in *.
      destruct (fix_stack_body verbose st w) as [[st1| |] w1]; try discriminate.
      apply (IH _ _ _ _ H). lia.
Qed.

Lemma fix_stack_more_fuel (fuel : nat) (text : str) (verbose : bool) (w : world)
    (n : Z) (w' : world) :
  fix_stack fuel text verbose w = (Ret n, w') ->
  forall fuel', fuel <= fuel' -> fix_stack fuel' text verbose w = (Ret n, w').
Proof.
  unfold fix_stack, fix_stack_run. intros H fuel' Hle.
  apply bind_inv in H as (st & w1 & H & Hr).
  apply bind_inv in H as (st0 & w0 & He & Hw).
  rewrite (bind_ret _ _ _ _ _
             (eq_trans (bind_ret _ _ _ _ _ He)
                       (fix_stack_while_more_fuel _ _ _ _ _ _ Hw fuel' Hle))).
  exact Hr.
Qed.

Lemma fix_stack_legal_outcome (text : str) (fuel : nat) (verbose : bool) (w : world) :
  text <> [] -> legal text ->
  (exists n w', fix_stack fuel text verbose w = (Ret n, w')) \/
  (exists w', fix_stack fuel text verbose w = (Diverge, w')).
Proof.
  intros Hne Hl. destruct (legal_parse text Hl) as (s & _ & <-).
  destruct s as [|o rest]; [exfalso; now apply Hne|].
  unfold fix_stack, fix_stack_run.
  pose proof (fix_stack_entry_show o rest verbose w) as He. cbv zeta in He.
  match type of He with
  | _ = ?r => assert (Hr : exists s c w1, r = (Ret (locals_of s c), w1))
  end.
  { destruct o; eauto. }
  destruct Hr as (s & c & w1 & Hr). rewrite Hr in He.
  unfold bind at 1 3. rewrite !(bind_ret _ _ _ _ _ He).
  destruct (fix_stack_while_outcome fuel verbose s c w1) as [(st & w' & E) | (w' & E)];
    rewrite !E; [left | right]; unfold ret; eauto.
Qed.

Lemma newline_not_legal (t : str) : ~ legal (t ++ [LF]).
Proof.
  intros H. apply legal_app in H as [_ H].
  inversion H as [|c r [E | E] _]; discriminate.
Qed.

(** X11. What [fix_stack] can do, on any text and with any number of
    iterations allowed. If it returns, the text is non-empty and over '+'
    and '-' and the count is that of the differing neighbours. If it
    raises, nothing has been printed, and it is [IndexError] on the empty
    text or the [CharacterError] of the validation on a text the pattern
    rejects: the [CharacterError] of [flip_char] never comes out of it. If
    the loop has not ended, the text is non-empty and passed the
    validation, and if it is over '+' and '-' the iterations allowed were
    fewer than its length less one. *)
Theorem fix_stack_outcomes (text : str) (fuel : nat) (verbose : bool) (w : world) :
  match fix_stack fuel text verbose w with
  | (Ret n, _) => text <> [] /\ legal text /\ n = flips_needed text
  | (Raise e, w') =>
      w' = w /\
      ((text = [] /\ e = IndexError) \/
       (LEGAL_STACK text = false /\
        e = CharacterError (lit "Not a legal stack: " ++ text)))
  | (Diverge, _) =>
      text <> [] /\ LEGAL_STACK text = true /\
      (legal text -> fuel < length text - 1)
  end.
Proof.
  destruct (LEGAL_STACK text) eqn:EL.
  - apply LEGAL_STACK_matches in EL as HL. destruct HL as [Hl | (t & Ht & ->)].
    + destruct text as [|c text].
      * simpl. split; [reflexivity | left; split; reflexivity].
      * assert (Hne : c :: text <> []) by discriminate.
        destruct (fix_stack_count _ Hne Hl) as (s & steps & _ & _ & Hrun).
        destruct (fix_stack_legal_outcome (c :: text) fuel verbose w Hne Hl)
          as [(n & w' & E) | (w' & E)]; rewrite E.
        -- repeat split; try assumption.
           pose proof (fix_stack_more_fuel _ _ _ _ _ _ E
                         (Nat.max fuel (length (c :: text) - 1)) (Nat.le_max_l _ _)) as E'.
           rewrite Hrun in E' by apply Nat.le_max_r. congruence.
        -- repeat split; try assumption.
           intros _. destruct (Nat.lt_ge_cases fuel (length (c :: text) - 1)) as [|G];
             [assumption|].
           rewrite Hrun in E by exact G. discriminate.
    + destruct (legal_parse t Ht) as (s & _ & <-).
      destruct (fix_stack_newline s fuel verbose w) as (w' & E). rewrite E.
      repeat split; try assumption.
      * destruct (show s); discriminate.
      * intros H. now apply newline_not_legal in H.
  - rewrite fix_stack_rejects by exact EL.
    split; [reflexivity | right; split; reflexivity].
Qed.

Lemma twin_ret {A : Type} (a : A) : silent_twin (ret a) (ret a).
Proof.
  intros w1 w2. repeat split. exists []. simpl. now rewrite printed_nil.
Qed.

Lemma twin_raise {A : Type} (e : exn) : silent_twin (@raise A e) (raise e).
Proof.
  intros w1 w2. repeat split. exists []. simpl. now rewrite printed_nil.
Qed.

Lemma twin_diverge {A : Type} : silent_twin (@diverge A) diverge.
Proof.
  intros w1 w2. repeat split. exists []. simpl. now rewrite printed_nil.
Qed.

Lemma twin_lift {A : Type} (c : outcome A) : silent_twin (lift c) (lift c).
Proof.
  intros w1 w2. repeat split. exists []. simpl. now rewrite printed_nil.
Qed.

Lemma twin_print (text end_ : str) : silent_twin (print_end text end_) (ret tt).
Proof.
  intros w1 w2. repeat split. now exists (text ++ end_).
Qed.

Lemma twin_bind {A B : Type} (c1 c2 : IO A) (k1 k2 : A -> IO B) :
  silent_twin c1 c2 -> (forall a, silent_twin (k1 a) (k2 a)) ->
  silent_twin (bind c1 k1) (bind c2 k2).
Proof.
  intros Hc Hk w1 w2. unfold bind.
  destruct (Hc w1 w2) as (E & Q & more & P).
  destruct (c1 w1) as [[a| |] w1'], (c2 w2) as [[a'| |] w2']; simpl in *;
    try discriminate; subst w2' w1'.
  - injection E as <-.
    destruct (Hk a (printed w1 more) w2) as (E' & Q' & more' & P').
    repeat split; try assumption.
    exists (more ++ more'). now rewrite P', printed_app.
  - injection E as <-. repeat split. now exists more.
  - repeat split. now exists more.
Qed.

Lemma twin_flip_and_print (k : Z) (text : str) :
  silent_twin (flip_and_print k text true) (flip_and_print k text false).
Proof.
  unfold flip_and_print. apply twin_bind; [apply twin_lift|]. intros t.
  apply twin_bind; [apply twin_print | intros _; apply twin_ret].
Qed.

Lemma twin_fix_stack_entry (text : str) :
  silent_twin (fix_stack_entry text true) (fix_stack_entry text false).
Proof.
  unfold fix_stack_entry.
  destruct (negb (LEGAL_STACK text)); [apply twin_raise|].
  apply twin_bind; [apply twin_lift|]. intros down.
  apply twin_bind.
  - destruct down; [|apply twin_ret].
    apply twin_bind; [apply twin_print|]. intros _.
    apply twin_bind; [apply twin_flip_and_print|]. intros t. apply twin_ret.
  - intros [t c]. apply twin_ret.
Qed.

Lemma twin_fix_stack_body (st : locals) :
  silent_twin (fix_stack_body true st) (fix_stack_body false st).
Proof.
  unfold fix_stack_body.
  apply twin_bind; [apply twin_print|]. intros _.
  apply twin_bind; [apply twin_flip_and_print|]. intros t1.
  apply twin_bind; [apply twin_print|]. intros _.
  apply twin_bind; [apply twin_flip_and_print|]. intros t2. apply twin_ret.
Qed.

Lemma twin_fix_stack_while (fuel : nat) :
  forall st, silent_twin (fix_stack_while fuel true st) (fix_stack_while fuel false st).
Proof.
  induction fuel as [|fuel IH]; intros st; simpl;
    destruct (finished st); try apply twin_ret; [apply twin_diverge|].
  apply twin_bind; [apply twin_fix_stack_body | exact IH].
Qed.

Lemma twin_fix_stack (fuel : nat) (text : str) :
  silent_twin (fix_stack fuel text true) (fix_stack fuel text false).
Proof.
  unfold fix_stack, fix_stack_run.
  apply twin_bind; [|intros st; apply twin_ret].
  apply twin_bind; [apply twin_fix_stack_entry | apply twin_fix_stack_while].
Qed.

(** X12. The [verbose] flag of [fix_stack] decides what is printed and
    nothing else: on every text the verbose and the silent run have the
    same outcome, the silent run prints nothing, and the verbose run only
    adds to what was printed; neither reads the input. *)
Theorem verbose_only_prints (fuel : nat) (text : str) (w : world) :
  fst (fix_stack fuel text true w) = fst (fix_stack fuel text false w) /\
  snd (fix_stack fuel text false w) = w /\
  exists more, snd (fix_stack fuel text true w) = printed w more.
Proof. apply twin_fix_stack. Qed.

End Outcomes.

(** ** Whole batches, and the command line *)

Section Runs_of_main.

Import Spec.

Lemma fix_stack_silent_count (fuel : nat) (text : str) (w : world) :
  text <> [] -> legal text -> length text - 1 <= fuel ->
  fix_stack fuel text false w = (Ret (flips_needed text), w).
Proof.
  intros Hne Hl Hfuel.
  destruct (fix_stack_count text Hne Hl) as (s & steps & _ & _ & Hrun).
  rewrite Hrun by exact Hfuel. simpl. now rewrite printed_nil.
Qed.

(** The outcome of a silent run does not depend on the world. *)
Lemma fix_stack_silent_raise (fuel : nat) (text : str) (e : exn) (w0 w : world) :
  fst (fix_stack fuel text false w0) = Raise e ->
  fix_stack fuel text false w = (Raise e, w).
Proof.
  intros H.
  destruct (twin_fix_stack fuel text w0 w0) as (E0 & _ & _).
  destruct (twin_fix_stack fuel text w0 w) as (E & Q & _).
  destruct (fix_stack fuel text false w) as [o w']. simpl in *.
  subst w'. f_equal. congruence.
Qed.

(** The sequences a batch can go through: non-empty once stripped, over '+'
    and '-', and short enough for the iterations allowed. *)
Lemma for_stack_raw_through (fuel : nat) (count : Z) (tail : list str) :
  forall (good : list str) (case : Z) (w : world),
    (forall l, In l good ->
       strip l <> [] /\ legal (strip l) /\ length (strip l) - 1 <= fuel) ->
    (Z.of_nat (length good) <= Z.max 0 (count - case))%Z ->
    stdin w = good ++ tail ->
    for_stack_raw fuel count case (good ++ tail) w
    = for_stack_raw fuel count (case + Z.of_nat (length good)) tail
        (World tail (stdout w ++ case_lines (case + 1) good)).
Proof.
  induction good as [|l good IH]; intros case w Hgood Hcount Hin.
  - simpl in *. rewrite Z.add_0_r, app_nil_r. destruct w. simpl in Hin. now subst.
  - destruct (Hgood l (or_introl eq_refl)) as (Hne & Hl & Hfuel).
    cbn [app for_stack_raw]. unfold bind at 1.
    simpl length in Hcount.
    destruct (Z.gtb_spec (case + 1) count) as [G | _]; [lia|].
    unfold bind at 1. rewrite fix_stack_silent_count by assumption.
    unfold bind at 1. unfold print, print_end. cbn [stdin stdout].
    rewrite IH.
    + simpl length. cbn [stdout case_lines].
      replace (case + 1 + Z.of_nat (length good))%Z
        with (case + Z.of_nat (S (length good)))%Z by lia.
      f_equal. f_equal. rewrite <- !app_assoc. reflexivity.
    + intros l' H'. apply Hgood. now right.
    + lia.
    + reflexivity.
Qed.

(** X13. Batch mode on a stream whose first line reads as the count [N] and
    whose first [N] sequences (or all of them, when there are fewer) are,
    once stripped, non-empty and over '+' and '-': it prints one line
    "Case #i: n" for each of them, numbered from 1, with the count of
    differing neighbours [n] of the i-th sequence, and nothing else; it
    returns when the stream has no more than [N] sequences and leaves
    through [sys.exit(0)] when it has more, having read one line beyond the
    [N]-th. *)
Theorem batch_mode_cases (fuel : nat) (header : str) (lines : list str)
    (printed_before : str) (N : Z) :
  py_int (strip header) = Ret N ->
  (forall l, In l (firstn (Z.to_nat N) lines) ->
     strip l <> [] /\ legal (strip l) /\ length (strip l) - 1 <= fuel) ->
  process_input_data_stream fuel (World (header :: lines) printed_before)
  = (if length lines <=? Z.to_nat N then Ret tt else Raise (SystemExit 0),
     World (skipn (S (Z.to_nat N)) lines)
           (printed_before ++ case_lines 1 (firstn (Z.to_nat N) lines))).
Proof.
  intros HN Hgood.
  unfold process_input_data_stream, bind, readline, lift. cbn [stdin stdout].
  rewrite HN. cbv iota beta. cbn [stdin].
  set (n := Z.to_nat N) in *.
  rewrite <- (firstn_skipn n lines) at 1 2.
  pose proof (firstn_le_length n lines) as Hle.
  assert (Hlen : length (firstn n lines) = Nat.min n (length lines))
    by apply length_firstn.
  rewrite for_stack_raw_through; try assumption;
    [|unfold n in *; lia | reflexivity].
  cbn [stdout]. change (0 + 1)%Z with 1%Z.
  destruct (Nat.leb_spec (length lines) n) as [L | L].
  - rewrite !skipn_all2 by lia. reflexivity.
  - destruct (skipn n lines) as [|l' r] eqn:E.
    + apply (f_equal (@length _)) in E. rewrite length_skipn in E. simpl in E. lia.
    + cbn [for_stack_raw]. unfold bind.
      destruct (Z.gtb_spec (0 + Z.of_nat (length (firstn n lines)) + 1) N) as [_ | G];
        [|lia].
      unfold raise. cbn [stdout]. do 2 f_equal.
      change (S n) with (1 + n). now rewrite <- skipn_skipn, E.
Qed.

Lemma batch_mode_cases_witness :
  py_int (strip (lit "1" ++ [LF])) = Ret 1%Z /\
  process_input_data_stream 2
    (World [lit "1" ++ [LF]; lit " +-+ " ++ [LF]; lit "junk" ++ [LF]; lit "--" ++ [LF]] [])
  = (Raise (SystemExit 0), World [lit "--" ++ [LF]] (lit "Case #1: 2" ++ [LF])).
Proof.
  assert (P : py_int (strip (lit "1" ++ [LF])) = Ret 1%Z) by reflexivity.
  assert (G : forall l, In l (firstn (Z.to_nat 1)
                [lit " +-+ " ++ [LF]; lit "junk" ++ [LF]; lit "--" ++ [LF]]) ->
              strip l <> [] /\ legal (strip l) /\ length (strip l) - 1 <= 2).
  { intros l [<- | []]. split; [discriminate | split; [legal_text | simpl; lia]]. }
  exact (conj P (batch_mode_cases 2 _ _ [] 1%Z P G)).
Defined.

(** A batch up to the first sequence that raises. *)
Lemma batch_stop_aux (fuel : nat) (header : str)
    (good : list str) (bad : str) (rest : list str)
    (printed_before : str) (N : Z) (e : exn) :
  py_int (strip header) = Ret N ->
  (Z.of_nat (length good) < N)%Z ->
  (forall l, In l good ->
     strip l <> [] /\ legal (strip l) /\ length (strip l) - 1 <= fuel) ->
  (strip bad = [] /\ e = IndexError) \/
  (LEGAL_STACK (strip bad) = false /\
   e = CharacterError (lit "Not a legal stack: " ++ strip bad)) ->
  process_input_data_stream fuel
    (World (header :: good ++ bad :: rest) printed_before)
  = (Raise e, World rest (printed_before ++ case_lines 1 good)).
Proof.
  intros HN Hlt Hgood Hbad.
  unfold process_input_data_stream, bind, readline, lift. cbn [stdin stdout].
  rewrite HN. cbv iota beta. cbn [stdin].
  rewrite for_stack_raw_through; try assumption; [|lia | reflexivity].
  cbn [stdout for_stack_raw]. change (0 + 1)%Z with 1%Z. unfold bind at 1.
  destruct (Z.gtb_spec (0 + Z.of_nat (length good) + 1) N) as [G | _]; [lia|].
  unfold bind. cbn [stdout].
  assert (E : fst (fix_stack fuel (strip bad) false (World [] [])) = Raise e).
  { destruct Hbad as [[-> ->] | [HL ->]]; [reflexivity|].
    now rewrite fix_stack_rejects. }
  now rewrite (fix_stack_silent_raise _ _ _ _ _ E).
Qed.

(** X14. Batch mode has no recovery for a case: when, before the count is
    reached, a sequence is blank or is rejected by the validation, after
    sequences that went through, the run ends there with [IndexError] for
    the blank line and [CharacterError] for the rejected one; the lines of
    the earlier cases have been printed, nothing is printed for this case
    or any later one, and the later lines are not read. *)
Theorem batch_mode_stops_at_error (fuel : nat) (header : str)
    (good : list str) (bad : str) (rest : list str)
    (printed_before : str) (N : Z) (e : exn) :
  py_int (strip header) = Ret N ->
  (Z.of_nat (length good) < N)%Z ->
  (forall l, In l good ->
     strip l <> [] /\ legal (strip l) /\ length (strip l) - 1 <= fuel) ->
  (strip bad = [] /\ e = IndexError) \/
  (LEGAL_STACK (strip bad) = false /\
   e = CharacterError (lit "Not a legal stack: " ++ strip bad)) ->
  process_input_data_stream fuel
    (World (header :: good ++ bad :: rest) printed_before)
  = (Raise e, World rest (printed_before ++ case_lines 1 good)).
Proof. apply batch_stop_aux. Qed.

Lemma batch_mode_stops_at_error_witness :
  py_int (strip (lit "3" ++ [LF])) = Ret 3%Z /\
  process_input_data_stream 2
    (World [lit "3" ++ [LF]; lit "-+" ++ [LF]; lit "+x" ++ [LF]; lit "--" ++ [LF]] [])
  = (Raise (CharacterError (lit "Not a legal stack: +x")),
     World [lit "--" ++ [LF]] (lit "Case #1: 1" ++ [LF])).
Proof.
  assert (P : py_int (strip (lit "3" ++ [LF])) = Ret 3%Z) by reflexivity.
  assert (L : (Z.of_nat (length [lit "-+" ++ [LF]]) < 3)%Z) by reflexivity.
  assert (G : forall l, In l [lit "-+" ++ [LF]] ->
              strip l <> [] /\ legal (strip l) /\ length (strip l) - 1 <= 2).
  { intros l [<- | []]. split; [discriminate | split; [legal_text | simpl; lia]]. }
  assert (B : (strip (lit "+x" ++ [LF]) = [] /\
               CharacterError (lit "Not a legal stack: +x") = IndexError) \/
              (LEGAL_STACK (strip (lit "+x" ++ [LF])) = false /\
               CharacterError (lit "Not a legal stack: +x")
               = CharacterError (lit "Not a legal stack: " ++ strip (lit "+x" ++ [LF]))))
    by (right; split; reflexivity).
  exact (conj P (batch_mode_stops_at_error 2 _ [lit "-+" ++ [LF]] (lit "+x" ++ [LF])
                   [lit "--" ++ [LF]] [] 3%Z _ P L G B)).
Defined.

(** X15. [main] with [--fix] on a non-empty text over '+' and '-' (and
    without [--experiments]): it prints the text behind two blanks, the
    steps of the reducer on it as the verbose mode shows them, and
    "Flips: n" with the count of differing neighbours, returns normally and
    writes nothing to the error stream, whatever [--verbose], [--data] and
    [--items] are. *)
Theorem main_fix_legal (fuel : nat) (opts : options) (text : str) (w : world) :
  opt_experiments opts = false -> opt_fix opts = Some text ->
  text <> [] -> legal text -> length text - 1 <= fuel ->
  exists s steps,
    parse text = Some s /\ reduce s steps (flips_needed text) /\
    main fuel opts w
    = (Ret tt,
       printed w (lit "  " ++ text ++ [LF] ++ trace steps
                  ++ lit "Flips: " ++ format_int (flips_needed text) ++ [LF]),
       []).
Proof.
  intros Hx Hf Hne Hl Hfuel.
  destruct (fix_stack_count text Hne Hl) as (s & steps & Hparse & Hred & Hrun).
  exists s, steps. repeat split; try assumption.
  unfold main, main_try. rewrite Hx, Hf.
  destruct text as [|c text]; [congruence|]. cbn [truthy text_of].
  unfold bind at 1. unfold print at 1, print_end at 1. cbn [stdin stdout].
  unfold bind at 1. rewrite Hrun by exact Hfuel.
  unfold bind, print, print_end, printed, shown. cbn [stdin stdout].
  do 3 f_equal. rewrite <- !app_assoc. reflexivity.
Qed.

Lemma main_fix_legal_witness :
  exists s steps,
    parse (lit "+-") = Some s /\ reduce s steps (flips_needed (lit "+-")) /\
    main 1 (Options None false false false (Some (lit "+-"))) (World [] [])
    = (Ret tt,
       printed (World [] [])
         (lit "  " ++ lit "+-" ++ [LF] ++ trace steps
          ++ lit "Flips: " ++ format_int (flips_needed (lit "+-")) ++ [LF]),
       []).
Proof.
  assert (N : lit "+-" <> []) by discriminate.
  assert (L : legal (lit "+-")) by legal_text.
  assert (F : length (lit "+-") - 1 <= 1) by (simpl; lia).
  exact (main_fix_legal 1 (Options None false false false (Some (lit "+-")))
           (lit "+-") (World [] []) eq_refl eq_refl N L F).
Defined.

(** X16. [main] with [--fix] on a text the validation rejects: it prints
    the text behind two blanks and no step, writes the report with
    "Not a legal stack: " and the text to the error stream, and leaves
    through [sys.exit(1)]. *)
Theorem main_fix_illegal (fuel : nat) (opts : options) (text : str) (w : world) :
  opt_experiments opts = false -> opt_fix opts = Some text ->
  LEGAL_STACK text = false ->
  main fuel opts w
  = (Raise (SystemExit 1),
     printed w (lit "  " ++ text ++ [LF]),
     character_error_report (lit "Not a legal stack: " ++ text)).
Proof.
  intros Hx Hf HL. unfold main, main_try. rewrite Hx, Hf.
  destruct text as [|c text]; [discriminate|]. cbn [truthy text_of].
  unfold bind at 1. unfold print at 1, print_end at 1. cbn [stdin stdout].
  unfold bind at 1. rewrite fix_stack_rejects by exact HL.
  unfold printed. cbn [stdin stdout]. rewrite <- !app_assoc. reflexivity.
Qed.

Lemma main_fix_illegal_witness :
  LEGAL_STACK (lit "--x++") = false /\
  main 0 (Options None false true true (Some (lit "--x++"))) (World [] [])
  = (Raise (SystemExit 1),
     World [] (lit "  --x++" ++ [LF]),
     [LF] ++ lit "There was a character error:" ++ [LF]
       ++ lit "Not a legal stack: --x++" ++ [LF]).
Proof.
  assert (L : LEGAL_STACK (lit "--x++") = false) by reflexivity.
  exact (conj L (main_fix_illegal 0 (Options None false true true (Some (lit "--x++")))
                   (lit "--x++") (World [] []) eq_refl eq_refl L)).
Defined.

(** X17. [main] in batch mode (no [--experiments], [--fix] absent or empty,
    [--data]) handles the [CharacterError] of a rejected sequence only: it
    writes the report to the error stream and leaves through [sys.exit(1)]
    with the earlier cases printed; the [IndexError] of a blank line is not
    handled, and comes out of [main] with nothing written to the error
    stream. *)
Theorem main_data_errors (fuel : nat) (opts : options) (header : str)
    (good : list str) (bad : str) (rest : list str)
    (printed_before : str) (N : Z) :
  opt_experiments opts = false -> truthy (opt_fix opts) = false ->
  opt_data opts = true ->
  py_int (strip header) = Ret N ->
  (Z.of_nat (length good) < N)%Z ->
  (forall l, In l good ->
     strip l <> [] /\ legal (strip l) /\ length (strip l) - 1 <= fuel) ->
  let w := World (header :: good ++ bad :: rest) printed_before in
  let w' := World rest (printed_before ++ case_lines 1 good) in
  (strip bad = [] -> main fuel opts w = (Raise IndexError, w', [])) /\
  (LEGAL_STACK (strip bad) = false ->
   main fuel opts w
   = (Raise (SystemExit 1), w',
      character_error_report (lit "Not a legal stack: " ++ strip bad))).
Proof.
  intros Hx Hf Hd HN Hlt Hgood w w'. subst w w'.
  pose proof (fun e => batch_stop_aux fuel header good bad rest printed_before N e
                         HN Hlt Hgood) as H.
  unfold main, main_try. rewrite Hx, Hf, Hd. split; intros Hb.
  - now rewrite (H IndexError (or_introl (conj Hb eq_refl))).
  - now rewrite (H _ (or_intror (conj Hb eq_refl))).
Qed.

Lemma main_data_errors_witness :
  main 2 (Options None false false true None)
    (World [lit "3" ++ [LF]; lit "-+" ++ [LF]; lit "+x" ++ [LF]; lit "--" ++ [LF]] [])
  = (Raise (SystemExit 1),
     World [lit "--" ++ [LF]] (lit "Case #1: 1" ++ [LF]),
     character_error_report (lit "Not a legal stack: +x")) /\
  main 2 (Options None false false true (Some []))
    (World [lit "3" ++ [LF]; lit "-+" ++ [LF]; [LF]; lit "--" ++ [LF]] [])
  = (Raise IndexError, World [lit "--" ++ [LF]] (lit "Case #1: 1" ++ [LF]), []).
Proof.
  assert (P : py_int (strip (lit "3" ++ [LF])) = Ret 3%Z) by reflexivity.
  assert (L : (Z.of_nat (length [lit "-+" ++ [LF]]) < 3)%Z) by reflexivity.
  assert (G : forall l, In l [lit "-+" ++ [LF]] ->
              strip l <> [] /\ legal (strip l) /\ length (strip l) - 1 <= 2).
  { intros l [<- | []]. split; [discriminate | split; [legal_text | simpl; lia]]. }
  split.
  - exact (proj2 (main_data_errors 2 (Options None false false true None)
                    (lit "3" ++ [LF]) [lit "-+" ++ [LF]] (lit "+x" ++ [LF])
                    [lit "--" ++ [LF]] [] 3%Z eq_refl eq_refl eq_refl P L G) eq_refl).
  - exact (proj1 (main_data_errors 2 (Options None false false true (Some []))
                    (lit "3" ++ [LF]) [lit "-+" ++ [LF]] [LF]
                    [lit "--" ++ [LF]] [] 3%Z eq_refl eq_refl eq_refl P L G) eq_refl).
Defined.




End Runs_of_main.
